(** * module-acme-logging: the argument normaliser and the record assembler

    The repository wraps a logging engine (pino).  The code that decides
    what the engine receives is [getArgs], [isNotEmpty], [fail], the
    [logMethod] hook and the [formatters.log] formatter, together with the
    list of redaction paths handed to the engine.  Three revisions of that
    code are present in the sources:

    - [src/unnamed/part_000]: the revision with dates, the size ceiling
      and the [error] to [err] renaming (module-level definitions below);
    - [src/index.js]: an earlier revision (module [IndexJs]);
    - [src/unnamed/part_001]: the first revision, a factory
      (module [Factory]).

    JavaScript objects live in a heap and are referred to by location, so
    that identity, freshly constructed objects and cyclic contexts are
    represented as they are at run time. *)

From Stdlib Require Import ZArith Ascii DecimalString DecimalZ DecimalN DecimalPos.
From stdpp Require Import gmap strings list fin_maps pretty sorting.

Local Open Scope Z_scope.

(** ** Values *)

Definition loc := nat.

(** Numbers.  [Finite z] is the Number value for the integer [z], the
    double nearest to it; [Decimal numeral] is a finite number that is not
    an integer, given by the numeral the language writes for it (the
    digits are the engine's: the code only passes such a number on). *)
Inductive number :=
| Finite (z : Z)
| Decimal (numeral : string)
| NaN
| Infinity (negative : bool).

(** Strings are kept in their (generalised) UTF-8 encoding, one [ascii]
    per byte; a surrogate that has no partner is the three bytes of its
    code unit. *)
Inductive value :=
| VUndefined
| VNull
| VBoolean (b : bool)
| VNumber (n : number)
| VString (s : string)
| VBigInt (z : Z)
| VSymbol (description : string)
| VRef (l : loc).

(** What reading a property can do: hand back a value or throw. *)
Inductive completion (A : Type) :=
| Normal (a : A)
| Throw (e : value).
Arguments Normal {A} a.
Arguments Throw {A} e.

(** An own enumerable property is a data property or an accessor; the
    accessor is represented by what calling its getter does.  A getter,
    like the function of a [FunctionObj] below, is taken to do the same at
    every call and to change no object. *)
Inductive slot :=
| Data (v : value)
| Accessor (get : completion value).

Inductive kind :=
| Plain
| ArrayObj (elems : list value)
| DateObj (iso : option string)
| ErrorObj (ctor message : string) (stack : list string)
| FunctionObj (call : completion value).

(** [props] holds the own enumerable string-keyed properties.  The
    [message] and [stack] of an error, the time value of a date, the
    elements of an array and what a call of a function does belong to the
    [okind].  Objects have the methods of their kind only: a [toJSON]
    inherited from a class of the caller is outside the model, one that is
    a property of the object is in it. *)
Record object := Obj { okind : kind; props : gmap string slot }.

Definition heap := list object.

Definition empty_object : object := Obj Plain ∅.

(** A location outside the heap does not occur in a state the program can
    reach; it reads as an object without properties. *)
Definition obj (h : heap) (l : loc) : object := nth l h empty_object.

Definition alloc (o : object) (h : heap) : loc * heap := (length h, h ++ [o]).

(** ** Outcomes of a computation *)

Inductive result (A : Type) :=
| Returns (a : A)
| Throws (e : value)
| Exhausted.
Arguments Returns {A} a.
Arguments Throws {A} e.
Arguments Exhausted {A}.

Global Instance result_ret : MRet result := λ A a, Returns a.
Global Instance result_bind : MBind result := λ A B f m,
  match m with
  | Returns a => f a
  | Throws e => Throws e
  | Exhausted => Exhausted
  end.
Global Instance result_fmap : FMap result := λ A B f m,
  match m with
  | Returns a => Returns (f a)
  | Throws e => Throws e
  | Exhausted => Exhausted
  end.

Definition of_completion {A} (c : completion A) : result A :=
  match c with
  | Normal a => Returns a
  | Throw e => Throws e
  end.

(** ** Language primitives used by the source *)

Definition typeof (h : heap) (v : value) : string :=
  match v with
  | VUndefined => "undefined"
  | VNull => "object"
  | VBoolean _ => "boolean"
  | VNumber _ => "number"
  | VString _ => "string"
  | VBigInt _ => "bigint"
  | VSymbol _ => "symbol"
  | VRef l =>
      match okind (obj h l) with
      | FunctionObj _ => "function"
      | _ => "object"
      end
  end.

Definition instanceof_Date (h : heap) (v : value) : bool :=
  match v with
  | VRef l => match okind (obj h l) with DateObj _ => true | _ => false end
  | _ => false
  end.

Definition instanceof_Error (h : heap) (v : value) : bool :=
  match v with
  | VRef l => match okind (obj h l) with ErrorObj _ _ _ => true | _ => false end
  | _ => false
  end.

(** Truthiness, for [a || b]. *)
Definition truthy (v : value) : bool :=
  match v with
  | VUndefined | VNull => false
  | VBoolean b => b
  | VNumber (Finite z) => negb (z =? 0)
  | VNumber (Decimal _) => true
  | VNumber NaN => false
  | VNumber (Infinity _) => true
  | VString s => negb (Nat.eqb (String.length s) 0)
  | VBigInt z => negb (z =? 0)
  | VSymbol _ => true
  | VRef _ => true
  end.

(** Index-keyed properties: the elements of an array, the characters of a
    string primitive. *)
Definition index_props (elems : list value) : gmap string slot :=
  list_to_map (imap (λ i v, (pretty i, Data v)) elems).

Definition own_props (o : object) : gmap string slot :=
  match okind o with
  | ArrayObj elems => index_props elems ∪ props o
  | _ => props o
  end.

(** [Object.keys(value)]; only the number of keys is ever observed. *)
Definition Object_keys (h : heap) (l : loc) : list string :=
  (map_to_list (own_props (obj h l))).*1.

(** The three bytes of a code unit from [0x0800] up. *)
Definition unit_bytes (u : N) : string :=
  String.string_of_list_ascii
    [ascii_of_N (0xE0 + u / 4096); ascii_of_N (0x80 + (u / 64) mod 64);
     ascii_of_N (0x80 + u mod 64)]%N.

(** The UTF-16 code units of a string, each as a string of its own: a
    character of one, two or three bytes is one unit, a character of four
    bytes is a pair of surrogates. *)
Fixpoint code_units (l : list ascii) : list string :=
  match l with
  | [] => []
  | a :: r1 =>
      let n := N_of_ascii a in
      if (n <? 0xC0)%N then String a EmptyString :: code_units r1 else
      match r1 with
      | b :: r2 =>
          if (n <? 0xE0)%N then String.string_of_list_ascii [a; b] :: code_units r2 else
          match r2 with
          | c :: r3 =>
              if (n <? 0xF0)%N then String.string_of_list_ascii [a; b; c] :: code_units r3 else
              match r3 with
              | d :: r4 =>
                  let point := ((n - 0xF0) * 262144 + (N_of_ascii b - 0x80) * 4096
                                + (N_of_ascii c - 0x80) * 64 + (N_of_ascii d - 0x80))%N in
                  let v := (point - 0x10000)%N in
                  unit_bytes (0xD800 + v / 1024) :: unit_bytes (0xDC00 + v mod 1024)
                  :: code_units r4
              | [] => [String.string_of_list_ascii l]
              end
          | [] => [String.string_of_list_ascii l]
          end
      | [] => [String.string_of_list_ascii l]
      end
  end.

(** The characters of a string primitive, as a spread sees them. *)
Definition chars (s : string) : list value :=
  VString <$> code_units (String.list_ascii_of_string s).

(** The own enumerable properties an object spread [{...v}] copies. *)
Definition enumerable_props (h : heap) (v : value) : gmap string slot :=
  match v with
  | VRef l => own_props (obj h l)
  | VString s => index_props (chars s)
  | _ => ∅
  end.

Definition read (s : slot) : completion value :=
  match s with
  | Data v => Normal v
  | Accessor get => get
  end.

Definition thrown (s : slot) : option value :=
  match read s with
  | Normal _ => None
  | Throw e => Some e
  end.

Definition value_of (s : slot) : value :=
  match read s with
  | Normal v => v
  | Throw _ => VUndefined
  end.

(** Reading every property of [m]: the first getter that throws aborts
    the copy (enumeration order is that of [map_to_list]). *)
Definition read_all (m : gmap string slot) : result (gmap string value) :=
  match omap (λ kv, thrown kv.2) (map_to_list m) with
  | e :: _ => Throws e
  | [] => Returns (value_of <$> m)
  end.

Definition spread (h : heap) (v : value) : result (gmap string value) :=
  read_all (enumerable_props h v).

(** ** Strings *)

(** White space and line terminators of the language, in UTF-8:
    U+0009..U+000D and U+0020; U+00A0; U+1680, U+2000..U+200A, U+2028,
    U+2029, U+202F, U+205F, U+3000 and U+FEFF. *)
Definition ws1 (a : ascii) : bool :=
  let a := N_of_ascii a in
  ((9 <=? a) && (a <=? 13) || (a =? 32))%N.

Definition ws2 (a b : ascii) : bool :=
  let a := N_of_ascii a in
  let b := N_of_ascii b in
  ((a =? 0xC2) && (b =? 0xA0))%N.

Definition ws3 (a b c : ascii) : bool :=
  let a := N_of_ascii a in
  let b := N_of_ascii b in
  let c := N_of_ascii c in
  ((a =? 0xE1) && (b =? 0x9A) && (c =? 0x80)
   || (a =? 0xE2) && (b =? 0x80)
      && ((0x80 <=? c) && (c <=? 0x8A) || (c =? 0xA8) || (c =? 0xA9) || (c =? 0xAF))
   || (a =? 0xE2) && (b =? 0x81) && (c =? 0x9F)
   || (a =? 0xE3) && (b =? 0x80) && (c =? 0x80)
   || (a =? 0xEF) && (b =? 0xBB) && (c =? 0xBF))%N.

(** Drops the white space at the front of [l]; with [back], [l] is a
    reversed string and the encodings are read backwards. *)
Fixpoint strip (back : bool) (l : list ascii) : list ascii :=
  match l with
  | a :: r1 =>
      if ws1 a then strip back r1 else
      match r1 with
      | b :: r2 =>
          if (if back then ws2 b a else ws2 a b) then strip back r2 else
          match r2 with
          | c :: r3 =>
              if (if back then ws3 c b a else ws3 a b c) then strip back r3 else l
          | [] => l
          end
      | [] => l
      end
  | [] => l
  end.

Definition trim (s : string) : string :=
  String.string_of_list_ascii
    (rev (strip true (rev (strip false (String.list_ascii_of_string s))))).

Definition dq : ascii := ascii_of_nat 34.
Definition backslash : ascii := ascii_of_nat 92.

Definition hex_digit (n : N) : ascii :=
  ascii_of_N (if (n <? 10)%N then 48 + n else 87 + n)%N.

(** One byte of a JSON string literal. *)
Definition escape_char (c : ascii) : string :=
  let n := N_of_ascii c in
  if (n =? 34)%N then String backslash (String dq EmptyString)
  else if (n =? 92)%N then String backslash (String backslash EmptyString)
  else if (n =? 8)%N then String backslash "b"
  else if (n =? 9)%N then String backslash "t"
  else if (n =? 10)%N then String backslash "n"
  else if (n =? 12)%N then String backslash "f"
  else if (n =? 13)%N then String backslash "r"
  else if (n <? 32)%N then
    String backslash
      (String "u" (String "0" (String "0"
        (String (hex_digit (n / 16)) (String (hex_digit (n mod 16)) EmptyString)))))
  else String c EmptyString.

(** The code unit of a surrogate without a partner, from its three
    bytes. *)
Definition surrogate (a b c : ascii) : option N :=
  let a := N_of_ascii a in
  let b := N_of_ascii b in
  let c := N_of_ascii c in
  if ((a =? 0xED) && (0xA0 <=? b) && (b <=? 0xBF) && (0x80 <=? c) && (c <=? 0xBF))%N
  then Some (0xD000 + (b - 0x80) * 64 + (c - 0x80))%N
  else None.

Definition unit_escape (u : N) : string :=
  String backslash
    (String "u" (String (hex_digit (u / 4096)) (String (hex_digit ((u / 256) mod 16))
      (String (hex_digit ((u / 16) mod 16)) (String (hex_digit (u mod 16)) EmptyString))))).

(** The body of a JSON string literal: quotes, backslashes, control
    characters and surrogates without a partner are escaped. *)
Fixpoint escape (s : string) : string :=
  match s with
  | EmptyString => EmptyString
  | String a r =>
      match r with
      | String b (String c r') =>
          match surrogate a b c with
          | Some u => unit_escape u +:+ escape r'
          | None => escape_char a +:+ escape r
          end
      | _ => escape_char a +:+ escape r
      end
  end.

(** [strEscape]: the quoted JSON form of a string. *)
Definition strEscape (s : string) : string :=
  String dq (escape s +:+ String dq EmptyString).

(** [String(z)] for a bigint: the decimal digits, with a minus sign for
    a negative one. *)
Definition String_of_Z (z : Z) : string := NilZero.string_of_int (Z.to_int z).

(** The double nearest to the natural number [a], ties to the even
    significand: the Number value for [a]. *)
Definition nearest_double (a : Z) : Z :=
  let shift := Z.log2 a - 52 in
  if shift <=? 0 then a else
  let q := Z.shiftr a shift in
  let r := a - Z.shiftl q shift in
  let half := Z.shiftl 1 (shift - 1) in
  Z.shiftl (if (half <? r) || ((r =? half) && Z.odd q) then q + 1 else q) shift.

(** Beyond the largest double the Number value is an infinity. *)
Definition overflows (z : Z) : bool := 2 ^ 1024 <=? nearest_double (Z.abs z).

Definition decimal_digits (a : Z) : Z := Z.of_nat (String.length (String_of_Z a)).

(** The decimal with the fewest significant digits that denotes the
    double [v]; of two with as many digits, the nearer one. *)
Fixpoint shortest_decimal (precisions : list Z) (v : Z) : Z :=
  match precisions with
  | [] => v
  | p :: rest =>
      let unit := 10 ^ (decimal_digits v - p) in
      let lo := v / unit * unit in
      let hi := lo + unit in
      let ok_lo := nearest_double lo =? v in
      let ok_hi := nearest_double hi =? v in
      if ok_lo && ok_hi then
        (if (v - lo <? hi - v) || ((v - lo =? hi - v) && Z.even (lo / unit)) then lo else hi)
      else if ok_lo then lo
      else if ok_hi then hi
      else shortest_decimal rest v
  end.

Fixpoint drop_zeros (l : list ascii) : list ascii :=
  match l with
  | "0"%char :: r => drop_zeros r
  | _ => l
  end.

(** [String(v)] for the Number value [v] of a natural number: all the
    digits below [10^21], the exponent form from there on. *)
Definition natural_text (a : Z) : string :=
  let c := shortest_decimal ((λ p, Z.of_nat p) <$> seq 1 17) (nearest_double a) in
  let digits := String.list_ascii_of_string (String_of_Z c) in
  if decimal_digits c <=? 21 then String_of_Z c else
  match rev (drop_zeros (rev digits)) with
  | d :: [] => String d EmptyString
  | d :: more => String d ("." +:+ String.string_of_list_ascii more)
  | [] => EmptyString
  end +:+ "e+" +:+ String_of_Z (decimal_digits c - 1).

(** [String(v)] for a number. *)
Definition Number_toString (n : number) : string :=
  match n with
  | Finite z =>
      if overflows z then (if z <? 0 then "-Infinity" else "Infinity")
      else (if z <? 0 then "-" else EmptyString) +:+ natural_text (Z.abs z)
  | Decimal numeral => numeral
  | NaN => "NaN"
  | Infinity negative => if negative then "-Infinity" else "Infinity"
  end.

(** Reading a decimal numeral back. *)
Definition Z_of_String (s : string) : option Z :=
  Z.of_int <$> NilZero.int_of_string s.

Fixpoint group3 (digits : list ascii) : list ascii :=
  match digits with
  | a :: b :: c :: (_ :: _) as rest => a :: b :: c :: ","%char :: group3 rest
  | _ => digits
  end.

(** [(z).toLocaleString()] in the en-US locale the README shows:
    digits in groups of three, separated by commas. *)
Definition toLocaleString (z : Z) : string :=
  (if z <? 0 then "-" else EmptyString)
  +:+ String.string_of_list_ascii
        (rev (group3 (rev (String.list_ascii_of_string (String_of_Z (Z.abs z)))))).

(** [Buffer.byteLength(s)]: the length of the UTF-8 encoding. *)
Definition Buffer_byteLength (s : string) : Z := Z.of_nat (String.length s).

Fixpoint join (sep : string) (items : list string) : string :=
  match items with
  | [] => EmptyString
  | [x] => x
  | x :: rest => x +:+ sep +:+ join sep rest
  end.

(** ** The serialiser used to measure a record

    [stringify] is safe-stable-stringify with its default options, as the
    source calls it: keys in sorted order, a marker at a reference to an
    ancestor, objects through their [toJSON] when they have one (dates
    do), and functions, symbols and [undefined] left out of objects and
    written [null] in arrays.  The traversal keeps the stack of the objects
    it is inside of; [fuel] bounds the nesting depth. *)

Definition circularValue : string := strEscape "[Circular]".

(** The number of a code unit, from the bytes [code_units] gives it. *)
Definition unit_value (u : string) : N :=
  match N_of_ascii <$> String.list_ascii_of_string u with
  | [a] => a
  | [a; b] => (a - 0xC0) * 64 + (b - 0x80)
  | [a; b; c] => (a - 0xE0) * 4096 + (b - 0x80) * 64 + (c - 0x80)
  | _ => 0
  end%N.

Fixpoint units_leb (x y : list N) : bool :=
  match x, y with
  | [], _ => true
  | _ :: _, [] => false
  | a :: x, b :: y => (a <? b)%N || ((a =? b)%N && units_leb x y)
  end.

(** The order of the language on strings, that of their code units,
    in which the keys are sorted. *)
Definition string_le (x y : string) : bool :=
  units_leb (unit_value <$> code_units (String.list_ascii_of_string x))
            (unit_value <$> code_units (String.list_ascii_of_string y)).

Definition key_le (x y : string * slot) : Prop := string_le x.1 y.1 = true.
Global Instance key_le_dec x y : Decision (key_le x y).
Proof. unfold key_le. apply _. Defined.

Definition sorted_props (m : gmap string slot) : list (string * slot) :=
  merge_sort key_le (map_to_list m).

(** The members that have a representation. *)
Definition present (fields : list (option string)) : list string :=
  fields ≫= option_list.

(** [isFinite(value) ? String(value) : 'null']. *)
Definition number_to_json (n : number) : string :=
  match n with
  | Finite z => if overflows z then "null" else Number_toString n
  | Decimal _ => Number_toString n
  | NaN | Infinity _ => "null"
  end.

(** The representation of a value that is not an object: none for
    [undefined], a symbol and a function. *)
Definition primitive_json (v : value) : option string :=
  match v with
  | VString s => Some (strEscape s)
  | VNull => Some "null"
  | VNumber n => Some (number_to_json n)
  | VBoolean b => Some (if b then "true" else "false")
  | VBigInt z => Some (String_of_Z z)
  | VUndefined | VSymbol _ | VRef _ => None
  end.

(** The elements of an array; one without a representation is [null]. *)
Definition items (rec : value → result (option string)) (elems : list value)
  : result (list string) :=
  mapM (λ e, r ← rec e; Returns (default "null" r)) elems.

Definition member (key : string) (r : option string) : option string :=
  (λ t, strEscape key +:+ ":" +:+ t) <$> r.

(** The members of an object, in the order of [kvs]: the property is
    read, which calls its getter if it is an accessor. *)
Definition members (rec : value → result (option string)) (kvs : list (string * slot))
  : result (list (option string)) :=
  mapM (λ kv, x ← of_completion (read kv.2);
              r ← rec x;
              Returns (member kv.1 r)) kvs.

(** An own property looked up as a method. *)
Inductive own_method :=
| Absent
| NotCallable
| Callable (call : completion value).

(** [o[k]] read as a method: reading calls the getter of an accessor. *)
Definition method (h : heap) (o : object) (k : string) : result own_method :=
  match own_props o !! k with
  | Some s =>
      t ← of_completion (read s);
      Returns match t with
              | VRef f => match okind (obj h f) with
                          | FunctionObj call => Callable call
                          | _ => NotCallable
                          end
              | _ => NotCallable
              end
  | None => Returns Absent
  end.

Definition is_object (v : value) : bool :=
  match v with
  | VRef _ => true
  | _ => false
  end.

(** The errors the language itself throws, by their names. *)
Definition TypeError : value := VString "TypeError".
Definition RangeError : value := VString "RangeError".

(** [Date.prototype.toJSON], on a date whose time value is that of [iso]
    ([None] for an invalid date).  The date is converted to a primitive
    through its [valueOf] and then its [toString]; unless that gives a
    number that is not finite, for which the result is [null], its
    [toISOString] is invoked.  Each of the three is the method of dates
    unless the date has a property of that name of its own. *)
Definition Date_toJSON (h : heap) (o : object) (iso : option string) : result value :=
  let to_string :=
    m ← method h o "toString";
    match m with
    | Absent => Returns (VString "Date")
    | Callable call =>
        r ← of_completion call;
        if is_object r then Throws TypeError else Returns r
    | NotCallable => Throws TypeError
    end in
  let invoke :=
    m ← method h o "toISOString";
    match m with
    | Absent => match iso with
                | Some text => Returns (VString text)
                | None => Throws RangeError
                end
    | Callable call => of_completion call
    | NotCallable => Throws TypeError
    end in
  m ← method h o "valueOf";
  tv ← match m with
       | Absent => Returns (VNumber match iso with Some _ => Finite 0 | None => NaN end)
       | Callable call =>
           r ← of_completion call;
           if is_object r then to_string else Returns r
       | NotCallable => to_string
       end;
  match tv with
  | VNumber NaN | VNumber (Infinity _) => Returns VNull
  | VNumber (Finite z) => if overflows z then Returns VNull else invoke
  | _ => invoke
  end.

(** The [toJSON] step of the serialiser: [value.toJSON(key)] when
    [value.toJSON] is a function, the method of dates for a date that has
    no such property of its own; [None] when there is no method. *)
Definition toJSON (h : heap) (o : object) : result (option value) :=
  m ← method h o "toJSON";
  match m with
  | Callable call => Some <$> of_completion call
  | NotCallable => Returns None
  | Absent =>
      match okind o with
      | DateObj iso => Some <$> Date_toJSON h o iso
      | _ => Returns None
      end
  end.

(** An array or an object that is entered: [rec] serialises what it
    holds, and there is none when the traversal may not go deeper. *)
Definition container (rec : option (value → result (option string))) (o : object)
  : result (option string) :=
  match okind o with
  | ArrayObj elems =>
      match elems, rec with
      | [], _ => Returns (Some "[]")
      | _, None => Exhausted
      | _, Some rec =>
          xs ← items rec elems;
          mret (Some ("[" +:+ join "," xs +:+ "]"))
      end
  | _ =>
      match sorted_props (props o), rec with
      | [], _ => Returns (Some "{}")
      | _, None => Exhausted
      | kvs, Some rec =>
          fields ← members rec kvs;
          mret (Some ("{" +:+ join "," (present fields) +:+ "}"))
      end
  end.

(** The part of [stringifySimple] that follows the [toJSON] step: a
    reference to an object the traversal is inside of is written as the
    marker, any other object is pushed and entered.  [rec] is the
    traversal one level down, for a given stack. *)
Definition enter (rec : option (list loc → value → result (option string)))
    (h : heap) (stack : list loc) (l : loc) : result (option string) :=
  if bool_decide (l ∈ stack) then Returns (Some circularValue)
  else container ((λ r, r (l :: stack)) <$> rec) (obj h l).

(** The object case of [stringifySimple]: an object with a [toJSON]
    method is replaced by what the method returns, once; a function has
    no representation. *)
Definition visit (enter : loc → result (option string)) (h : heap) (l : loc)
  : result (option string) :=
  match okind (obj h l) with
  | FunctionObj _ => Returns None
  | _ =>
      replaced ← toJSON h (obj h l);
      match replaced with
      | None => enter l
      | Some (VRef l') =>
          match okind (obj h l') with
          | FunctionObj _ => Returns None
          | _ => enter l'
          end
      | Some r => Returns (primitive_json r)
      end
  end.

(** [stringifySimple(key, value, stack)]. *)
Fixpoint stringifySimple (fuel : nat) (h : heap) (stack : list loc) (v : value)
  : result (option string) :=
  match v with
  | VRef l =>
      visit (enter match fuel with
                   | O => None
                   | S fuel' => Some (stringifySimple fuel' h)
                   end h stack) h l
  | _ => Returns (primitive_json v)
  end.

(** [stringify(outputArgs)], [outputArgs] being a fresh array of [args]. *)
Definition stringify (h : heap) (args : list value) : result string :=
  xs ← items (stringifySimple (S (length h)) h []) args;
  mret ("[" +:+ join "," xs +:+ "]").

(** ** The normaliser and the assembler ([src/unnamed/part_000]) *)

(** The frames of the functions being executed, innermost first. *)
Definition callstack := list string.

(** [Error.stackTraceLimit]. *)
Definition stackTraceLimit : nat := 10.

(** [new Error(message)], constructed while [frames] are executing. *)
Definition new_Error (frames : callstack) (message : string) (h : heap) : loc * heap :=
  alloc (Obj (ErrorObj "Error" message (take stackTraceLimit frames)) ∅) h.

(** [inputArgs[i]]. *)
Definition nth_arg (args : list value) (i : nat) : value :=
  default VUndefined (args !! i).

(** [String(v)]; the source applies it to a bigint only. *)
Definition ToString (v : value) : string :=
  match v with
  | VUndefined => "undefined"
  | VNull => "null"
  | VBoolean b => if b then "true" else "false"
  | VNumber n => Number_toString n
  | VString s => s
  | VBigInt z => String_of_Z z
  | VSymbol d => "Symbol(" +:+ d +:+ ")"
  | VRef _ => "[object Object]"
  end.

(** [function fail(message)]; [frames] are those of its callers. *)
Definition fail (frames : callstack) (message : string) (h : heap) : value * heap :=
  let '(e, h) := new_Error ("fail" :: frames) message h in
  let '(w, h) := alloc (Obj Plain {[ "err" := Data (VRef e) ]}) h in
  (VRef w, h).

Definition isNotEmpty (h : heap) (value : value) : bool :=
  match value with
  | VUndefined => false
  | VNull => false
  | VString s => negb (Nat.eqb (String.length (trim s)) 0)
  | VRef l =>
      if String.eqb (typeof h value) "object"
      then negb (Nat.eqb (length (Object_keys h l)) 0)
      else true
  | _ => true
  end.

Definition typeof_in (h : heap) (v : value) (names : list string) : bool :=
  bool_decide (typeof h v ∈ names).

(** The [if] chain of [getArgs], which assigns the local [args]. *)
Definition resolved_args (inputArgs : list value) (h : heap) : list value * heap :=
  let n := length inputArgs in
  let a0 := nth_arg inputArgs 0 in
  let a1 := nth_arg inputArgs 1 in
  if (2 <=? n)%nat && instanceof_Date h a1 then
    let '(o, h) := alloc (Obj Plain {[ "ts" := Data a1 ]}) h in ([a0; VRef o], h)
  else if (2 <=? n)%nat && instanceof_Error h a1 then
    let '(o, h) := alloc (Obj Plain {[ "err" := Data a1 ]}) h in ([a0; VRef o], h)
  else if (2 <=? n)%nat then (take 2 inputArgs, h)
  else if (n =? 1)%nat && typeof_in h a0 ["boolean"; "number"; "string"] then (inputArgs, h)
  else if (n =? 1)%nat && String.eqb (typeof h a0) "bigint" then ([VString (ToString a0)], h)
  else if (n =? 1)%nat && instanceof_Date h a0 then
    let '(o, h) := alloc (Obj Plain {[ "ts" := Data a0 ]}) h in ([VUndefined; VRef o], h)
  else if (n =? 1)%nat && instanceof_Error h a0 then
    let '(o, h) := alloc (Obj Plain {[ "err" := Data a0 ]}) h in ([VUndefined; VRef o], h)
  else if (n =? 1)%nat then (VUndefined :: inputArgs, h)
  else (inputArgs, h).

(** [function getArgs(inputArgs)]; [frames] are those of its callers. *)
Definition getArgs (frames : callstack) (inputArgs : list value) (h : heap)
  : list value * heap :=
  let '(args, h) := resolved_args inputArgs h in
  if existsb (isNotEmpty h) args then (args, h)
  else
    let '(w, h) := fail ("getArgs" :: frames) "Empty log message" h in
    ([VUndefined; w], h).

(** [options?.maxSize || 10000]. *)
Definition maxSize_of (maxSize : option Z) : Z :=
  match maxSize with
  | Some z => if z =? 0 then 10000 else z
  | None => 10000
  end.

(** [als.getStore() || {}], spread: a falsy store contributes nothing. *)
Definition spread_store (h : heap) (store : value) : result (gmap string value) :=
  if truthy store then spread h store else Returns ∅.

(** The first three statements of [logMethod]: the array [outputArgs],
    whose first element is the merged context [{ ...store, ...ctx }]. *)
Definition outputArgs (store : value) (frames : callstack) (inputArgs : list value)
    (h : heap) : result (list value * heap) :=
  let '(args, h) := getArgs ("logMethod" :: frames) inputArgs h in
  let message := nth_arg args 0 in
  let ctx := nth_arg args 1 in
  a ← spread_store h store;
  c ← spread h ctx;
  let '(m, h) := alloc (Obj Plain (Data <$> (c ∪ a))) h in
  mret ([VRef m; message], h).

Definition oversize_message (size maxSize : Z) : string :=
  "Log record size of " +:+ toLocaleString size
  +:+ " bytes exceeds maximum of " +:+ toLocaleString maxSize +:+ " bytes".

(** [logMethod(inputArgs, method, level)]: the result is the argument
    list [method] is applied to, that is, what the engine receives.
    [store] is [als.getStore()], [frames] the frames of the callers. *)
Definition logMethod (maxSize : Z) (store : value) (frames : callstack)
    (inputArgs : list value) (level : Z) (h : heap) : result (list value * heap) :=
  '(out, h) ← outputArgs store frames inputArgs h;
  text ← stringify h out;
  let size := Buffer_byteLength text in
  if maxSize <? size then
    let '(w, h) := fail ("logMethod" :: frames) (oversize_message size maxSize) h in
    mret ([w], h)
  else mret (out, h).

(** [formatters.log(object)]: [{ err: error, ...context }] where
    [{ error, ...context } = object].  The engine applies it to the
    first argument it received. *)
Definition formatters_log (object : value) (h : heap) : result (value * heap) :=
  match object with
  | VUndefined | VNull => Throws (VString "TypeError")
  | _ =>
      p ← spread h object;
      let error := default VUndefined (p !! "error") in
      let context := delete "error" p in
      let '(f, h) := alloc (Obj Plain (Data <$> (context ∪ {[ "err" := error ]}))) h in
      mret (VRef f, h)
  end.

(** The baseline redaction paths of [init], followed by
    [options?.redact?.paths || []]. *)
Definition redact_paths (extra : list string) : list string :=
  [ "password";
    "email";
    "*.password";
    "*.email";
    "*[*].password";
    "*[*].email";
    "req.headers.*";
    "request.headers.*";
    "res.headers.*";
    "resp.headers.*";
    "response.headers.*";
    "res.req.headers.*";
    "resp.req.headers.*";
    "response.request.headers.*";
    "err.req.headers.*";
    "err.request.headers.*";
    "err.res.headers.*";
    "err.resp.headers.*";
    "err.response.headers.*";
    "err.res.req.headers.*";
    "err.resp.req.headers.*";
    "err.response.request.headers.*" ] ++ extra.

(** ** The path language of the engine's redactor

    The core only lists paths; the engine matches them against the
    context.  A path is a sequence of segments separated by dots or
    written in brackets, and the segment [*] stands for any one key or
    array index.  Quoted segments, which no path of the source uses, are
    not treated. *)
Module Redact.

Definition separator (c : ascii) : bool :=
  let n := N_of_ascii c in
  ((n =? 46) || (n =? 91) || (n =? 93))%N.

Definition push (token : list ascii) (acc : list string) : list string :=
  match token with
  | [] => acc
  | _ => String.string_of_list_ascii (rev token) :: acc
  end.

(** [token] is the segment being read, reversed; [acc] the segments
    read so far, last first. *)
Fixpoint scan (token : list ascii) (acc : list string) (s : string) : list string :=
  match s with
  | EmptyString => rev (push token acc)
  | String c r =>
      if separator c then scan [] (push token acc) r
      else scan (c :: token) acc r
  end.

Definition segments (path : string) : list string := scan [] [] path.

Definition segment_matches (pattern key : string) : bool :=
  String.eqb pattern "*" || String.eqb pattern key.

Fixpoint matches (pattern : list string) (path : list string) : bool :=
  match pattern, path with
  | [], [] => true
  | p :: pattern, k :: path => segment_matches p k && matches pattern path
  | _, _ => false
  end.

(** Whether the value at [path] of the context is covered by [paths]. *)
Definition redacts (paths : list string) (path : list string) : bool :=
  existsb (λ p, matches (segments p) path) paths.

End Redact.

(** ** The revision in [src/index.js] *)
Module IndexJs.

Definition resolved_args (inputArgs : list value) (h : heap) : list value * heap :=
  let n := length inputArgs in
  let a0 := nth_arg inputArgs 0 in
  if (2 <=? n)%nat then (take 2 inputArgs, h)
  else if (n =? 1)%nat && typeof_in h a0 ["boolean"; "number"; "string"] then (inputArgs, h)
  else if (n =? 1)%nat && String.eqb (typeof h a0) "bigint" then ([VString (ToString a0)], h)
  else if (n =? 1)%nat && instanceof_Error h a0 then
    let '(o, h) := alloc (Obj Plain {[ "err" := Data a0 ]}) h in ([VUndefined; VRef o], h)
  else if (n =? 1)%nat then (VUndefined :: inputArgs, h)
  else (inputArgs, h).

(** Here the error of an empty call is constructed in [getArgs] itself. *)
Definition getArgs (frames : callstack) (inputArgs : list value) (h : heap)
  : list value * heap :=
  let '(args, h) := resolved_args inputArgs h in
  if existsb (isNotEmpty h) args then (args, h)
  else
    let '(e, h) := new_Error ("getArgs" :: frames) "Empty log message" h in
    let '(w, h) := alloc (Obj Plain {[ "err" := Data (VRef e) ]}) h in
    ([VUndefined; VRef w], h).

Definition logMethod (store : value) (frames : callstack)
    (inputArgs : list value) (level : Z) (h : heap) : result (list value * heap) :=
  let '(args, h) := getArgs ("logMethod" :: frames) inputArgs h in
  let message := nth_arg args 0 in
  let ctx := nth_arg args 1 in
  a ← spread_store h store;
  c ← spread h ctx;
  let '(m, h) := alloc (Obj Plain (Data <$> (c ∪ a))) h in
  mret ([VRef m; message], h).

Definition redact_paths (extra : list string) : list string :=
  [ "password";
    "email";
    "*.password";
    "*.email";
    "*[*].password";
    "*[*].email";
    "*.headers.*";
    "*.*.headers.*" ] ++ extra.

End IndexJs.

(** ** The revision in [src/unnamed/part_001] *)
Module Factory.

(** The text of [getArgs] and [isNotEmpty] is that of [src/index.js]. *)
Definition getArgs := IndexJs.getArgs.

(** [labels] is the engine's table [pino.levels.labels].  The merged
    object is [{ severity, ...ctx, ...store }]: the store is spread
    last. *)
Definition logMethod (labels : Z → value) (store : value) (frames : callstack)
    (inputArgs : list value) (level : Z) (h : heap) : result (list value * heap) :=
  let '(args, h) := getArgs ("logMethod" :: frames) inputArgs h in
  let message := nth_arg args 0 in
  let ctx := nth_arg args 1 in
  let severity := labels level in
  c ← spread h ctx;
  a ← spread_store h store;
  let '(m, h) := alloc (Obj Plain (Data <$> (a ∪ c ∪ {[ "severity" := severity ]}))) h in
  mret ([VRef m; message], h).

Definition redact_paths (extra : list string) : list string :=
  [ "email";
    "password";
    "*.email";
    "*.password";
    "*.headers.*";
    "*.*.headers.*" ] ++ extra.

End Factory.

(** ** The configuration read by [init] ([src/unnamed/part_000]) *)

(** [v?.k], for the own enumerable properties. *)
Definition Get (h : heap) (v : value) (k : string) : result value :=
  match v with
  | VUndefined | VNull => Returns VUndefined
  | _ =>
      match enumerable_props h v !! k with
      | Some s => of_completion (read s)
      | None => Returns VUndefined
      end
  end.

(** [a || b]. *)
Definition or_else (a b : value) : value := if truthy a then a else b.

(** The default parameter of [function init(options = { machine: true })]. *)
Definition default_options (options : value) (h : heap) : value * heap :=
  match options with
  | VUndefined =>
      let '(o, h) := alloc (Obj Plain {[ "machine" := Data (VBoolean true) ]}) h in
      (VRef o, h)
  | _ => (options, h)
  end.

(** [options?.sync || Boolean(options?.test) || false]. *)
Definition init_sync (h : heap) (options : value) : result value :=
  s ← Get h options "sync";
  if truthy s then Returns s else
  t ← Get h options "test";
  Returns (or_else (VBoolean (truthy t)) (VBoolean false)).

(** An element of the [targets] handed to [pino.transport]. *)
Record target := Target {
  target_name : string;
  target_level : value;
  target_options : option (gmap string value)
}.

Definition configureMachineLogger (h : heap) (options sync : value)
  : result (list target) :=
  machine ← Get h options "machine";
  if truthy machine then
    level ← Get h machine "level";
    destination ← Get h machine "destination";
    Returns [Target "pino/file" (or_else level (VString "info"))
               (Some {[ "destination" := or_else destination (VNumber (Finite 1));
                        "sync" := sync ]})]
  else Returns [].

Definition configureHumanLogger (h : heap) (options sync : value)
  : result (list target) :=
  human ← Get h options "human";
  if truthy human then
    level ← Get h human "level";
    destination ← Get h human "destination";
    Returns [Target "pino-pretty" (or_else level (VString "info"))
               (Some {[ "destination" := or_else destination (VNumber (Finite 1));
                        "ignore" := VString "time,severity";
                        "sync" := sync ]})]
  else Returns [].

(** [path.resolve(path.join('lib', 'post-message-transport'))] on a
    POSIX system, the process running in the directory [cwd]: an absolute
    path that ends in a slash only when it is the root. *)
Definition transport_path (cwd : string) : string :=
  (if String.eqb cwd "/" then EmptyString else cwd)
  +:+ "/" +:+ "lib" +:+ "/" +:+ "post-message-transport".

Definition configureTestLogger (cwd : string) (h : heap) (options : value)
  : result (list target) :=
  test ← Get h options "test";
  if truthy test then
    level ← Get h test "level";
    Returns [Target (transport_path cwd) (or_else level (VString "info")) None]
  else Returns [].

(** [sync] and [targets] as [init] computes them. *)
Definition init_targets (cwd : string) (h : heap) (options : value)
  : result (list target) :=
  sync ← init_sync h options;
  machine ← configureMachineLogger h options sync;
  human ← configureHumanLogger h options sync;
  test ← configureTestLogger cwd h options;
  Returns (machine ++ human ++ test).

(** ** Vocabulary of the statements *)

(** A byte of the ASCII range that is not white space. *)
Definition solid (c : ascii) : bool :=
  ((N_of_ascii c <? 128) && negb (ws1 c))%N.

(** A string made of white space and line terminators only. *)
Inductive blank : list ascii → Prop :=
| blank_nil : blank []
| blank_1 a l : ws1 a = true → blank l → blank (a :: l)
| blank_2 a b l : ws2 a b = true → blank l → blank (a :: b :: l)
| blank_3 a b c l : ws3 a b c = true → blank l → blank (a :: b :: c :: l).

(** An empty message: [undefined], or a string that is empty or white
    space only. *)
Definition message_empty (v : value) : Prop :=
  v = VUndefined ∨ ∃ s, v = VString s ∧ blank (String.list_ascii_of_string s).

(** An empty context: [undefined], [null], or an object without
    enumerable keys. *)
Definition context_empty (h : heap) (v : value) : Prop :=
  v = VUndefined ∨ v = VNull
  ∨ ∃ l, v = VRef l ∧ typeof h v = "object" ∧ own_props (obj h l) = ∅.

(** No accessor of an object of the heap throws. *)
Definition no_throw (h : heap) : Prop :=
  ∀ l k s, props (obj h l) !! k = Some s → thrown s = None.

(** The error object [new Error(message)] constructs under [frames]. *)
Definition error_object (frames : callstack) (message : string) : object :=
  Obj (ErrorObj "Error" message (take stackTraceLimit frames)) ∅.

(** The object [{ err: e }]. *)
Definition err_wrapper (e : loc) : object := Obj Plain {[ "err" := Data (VRef e) ]}.

(** What the engine can work with: one or two arguments, the first a
    reference to a plain object of the heap. *)
Definition valid_record (h : heap) (record : list value) : Prop :=
  ∃ m, record !! 0%nat = Some (VRef m)
       ∧ (m < length h)%nat
       ∧ okind (obj h m) = Plain
       ∧ (length record ≤ 2)%nat.

(** The ambient store has no [err] key of its own. *)
Definition err_key_free (h : heap) (store : value) : Prop :=
  truthy store = true → enumerable_props h store !! "err" = None.

(** The plain object [c] holds the error [e] under [err], or under
    [error] while neither [c] nor the store has an [err] key. *)
Definition wraps (h : heap) (store : value) (c e : loc) : Prop :=
  okind (obj h c) = Plain
  ∧ (props (obj h c) !! "err" = Some (Data (VRef e))
     ∨ (props (obj h c) !! "error" = Some (Data (VRef e))
        ∧ props (obj h c) !! "err" = None
        ∧ err_key_free h store)).

(** The ways of passing the error [e] to a logging call. *)
Inductive passes_error (h : heap) (store : value) (e : loc) : list value → Prop :=
| error_alone :
    passes_error h store e [VRef e]
| error_second a0 rest :
    passes_error h store e (a0 :: VRef e :: rest)
| error_wrapped_alone c :
    wraps h store c e → passes_error h store e [VRef c]
| error_wrapped_second a0 c rest :
    wraps h store c e → passes_error h store e (a0 :: VRef c :: rest).

(** The places under which the baseline paths reach a [headers] block. *)
Definition header_wrappers : list (list string) :=
  [ ["req"]; ["request"]; ["res"]; ["resp"]; ["response"];
    ["res"; "req"]; ["resp"; "req"]; ["response"; "request"];
    ["err"; "req"]; ["err"; "request"];
    ["err"; "res"]; ["err"; "resp"]; ["err"; "response"];
    ["err"; "res"; "req"]; ["err"; "resp"; "req"]; ["err"; "response"; "request"] ].

(** The places of the context the baseline paths point at: a [password]
    or [email] at most two levels down, and what is directly inside the
    [headers] of one of the wrappers above. *)
Definition covered (path : list string) : Prop :=
  (∃ prefix key, path = prefix ++ [key]
                 ∧ key ∈ ["password"; "email"] ∧ (length prefix ≤ 2)%nat)
  ∨ (∃ wrapper name, path = wrapper ++ ["headers"; name]
                     ∧ wrapper ∈ header_wrappers).

(** The text of the array [[{ err: e }]] when [e] has no enumerable
    properties. *)
Definition fail_record_text : string := "[{" +:+ strEscape "err" +:+ ":{}}]".

(** A grouped numeral without its separators. *)
Definition ungroup (s : string) : string :=
  String.string_of_list_ascii
    (filter (λ c, c ≠ ","%char) (String.list_ascii_of_string s)).

(** What reading [v?.k] gives when no getter throws. *)
Definition get_value (h : heap) (v : value) (k : string) : value :=
  match v with
  | VUndefined | VNull => VUndefined
  | _ => from_option value_of VUndefined (enumerable_props h v !! k)
  end.

(** The normal form of an argument list: one scalar that is not empty,
    or two values, not both empty, the second neither a date nor an
    error. *)
Definition normal (h : heap) (args : list value) : Prop :=
  (∃ a0, args = [a0]
         ∧ typeof_in h a0 ["boolean"; "number"; "string"] = true
         ∧ isNotEmpty h a0 = true)
  ∨ (∃ a0 a1, args = [a0; a1]
              ∧ instanceof_Date h a1 = false
              ∧ instanceof_Error h a1 = false
              ∧ existsb (isNotEmpty h) [a0; a1] = true).

(** A primitive without enumerable properties that [isNotEmpty] accepts. *)
Definition bare_primitive (v : value) : Prop :=
  match v with
  | VBoolean _ | VNumber _ | VBigInt _ | VSymbol _ => True
  | _ => False
  end.

(** The places the paths of [src/index.js] point at. *)
Definition IndexJs_covered (path : list string) : Prop :=
  (∃ prefix key, path = prefix ++ [key]
                 ∧ key ∈ ["password"; "email"] ∧ (length prefix ≤ 2)%nat)
  ∨ (∃ wrapper name, path = wrapper ++ ["headers"; name]
                     ∧ (1 ≤ length wrapper ≤ 2)%nat).

(** The places the paths of [src/unnamed/part_001] point at. *)
Definition Factory_covered (path : list string) : Prop :=
  (∃ prefix key, path = prefix ++ [key]
                 ∧ key ∈ ["password"; "email"] ∧ (length prefix ≤ 1)%nat)
  ∨ (∃ wrapper name, path = wrapper ++ ["headers"; name]
                     ∧ (1 ≤ length wrapper ≤ 2)%nat).

(** What [init] reads from its options when no getter throws: the
    [sync] of the targets, and the level and the destination of the
    target configured under the key [k]. *)
Definition sync_of (h : heap) (options : value) : value :=
  or_else (get_value h options "sync") (VBoolean (truthy (get_value h options "test"))).

Definition level_of (h : heap) (options : value) (k : string) : value :=
  or_else (get_value h (get_value h options k) "level") (VString "info").

Definition destination_of (h : heap) (options : value) (k : string) : value :=
  or_else (get_value h (get_value h options k) "destination") (VNumber (Finite 1)).

(** A getter of an object of the heap throws [e]. *)
Definition getter_throws (h : heap) (e : value) : Prop :=
  ∃ l k s, props (obj h l) !! k = Some s ∧ thrown s = Some e.

(** The [toJSON] method of an object of the heap throws [e]: the step
    of the serialiser that looks the method up and calls it does.  For a
    date without a [toJSON] of its own the method is that of dates. *)
Definition toJSON_throws (h : heap) (e : value) : Prop :=
  ∃ l, toJSON h (obj h l) = Throws e.

(** No [toJSON] method of an object of the heap throws. *)
Definition no_toJSON_throws (h : heap) : Prop := ∀ e, ¬ toJSON_throws h e.

(** A computation settles: it returns, or it throws what a getter or a
    [toJSON] method of an object of the heap threw. *)
Definition settles {A} (h : heap) (r : result A) : Prop :=
  (∃ x, r = Returns x) ∨ (∃ e, r = Throws e ∧ (getter_throws h e ∨ toJSON_throws h e)).

(** * Properties *)

Local Close Scope Z_scope.

Global Arguments isNotEmpty : simpl never.
Global Arguments fail : simpl never.
Global Arguments stringify : simpl never.
Global Arguments trim : simpl never.
Global Arguments oversize_message : simpl never.
Global Arguments items : simpl never.
Global Arguments typeof : simpl never.
Global Arguments instanceof_Date : simpl never.
Global Arguments instanceof_Error : simpl never.
Global Arguments members : simpl never.
Global Arguments visit : simpl never.
Global Arguments enter : simpl never.
Global Arguments container : simpl never.
Global Arguments toJSON : simpl never.
Global Arguments method : simpl never.
Global Arguments Date_toJSON : simpl never.
Global Arguments stringifySimple : simpl never.

(** ** The heap *)

Lemma obj_alloc_new h o : obj (h ++ [o]) (length h) = o.
Proof. unfold obj. rewrite app_nth2 by lia. by rewrite Nat.sub_diag. Qed.

Lemma obj_alloc_old h h' l : (l < length h)%nat → obj (h ++ h') l = obj h l.
Proof. intros Hl. unfold obj. by rewrite app_nth1. Qed.

Lemma obj_outside h l : (length h ≤ l)%nat → obj h l = empty_object.
Proof. intros Hl. unfold obj. by rewrite nth_overflow. Qed.

Lemma obj_inside h l : obj h l ≠ empty_object → (l < length h)%nat.
Proof.
  intros Hne. destruct (decide (l < length h)%nat) as [|Hge]; [done|].
  destruct Hne. apply obj_outside. lia.
Qed.

Lemma Object_keys_empty h l : Object_keys h l = [] ↔ own_props (obj h l) = ∅.
Proof.
  unfold Object_keys. rewrite <- map_to_list_empty_iff.
  split; [apply fmap_nil_inv | by intros ->].
Qed.

Lemma Object_keys_singleton h l k s :
  own_props (obj h l) = {[ k := s ]} → Object_keys h l = [k].
Proof. intros E. unfold Object_keys. by rewrite E, map_to_list_singleton. Qed.

(** A wrapper object just allocated is not empty, whatever it wraps. *)
Lemma isNotEmpty_wrapper h k s :
  isNotEmpty (h ++ [Obj Plain {[ k := s ]}]) (VRef (length h)) = true.
Proof.
  unfold isNotEmpty, typeof. rewrite obj_alloc_new. simpl.
  erewrite Object_keys_singleton; [done|]. by rewrite obj_alloc_new.
Qed.

(** ** White space and decimal numerals *)

Ltac bool_to_prop :=
  repeat first
    [ rewrite orb_true_iff | rewrite andb_true_iff | rewrite negb_true_iff
    | rewrite N.eqb_eq | rewrite N.leb_le | rewrite N.ltb_lt ].

Lemma solid_not_ws a x y :
  solid a = true →
  ws1 a = false ∧ ws2 a x = false ∧ ws2 x a = false
  ∧ ws3 a x y = false ∧ ws3 x y a = false.
Proof.
  unfold solid, ws2, ws3. rewrite andb_true_iff, negb_true_iff, N.ltb_lt.
  generalize (N_of_ascii x) (N_of_ascii y). intros m k [Hlt Hws].
  split; [done|]. clear Hws. revert Hlt.
  generalize (N_of_ascii a). intros n Hlt. cbv zeta.
  repeat split; apply not_true_iff_false; bool_to_prop; lia.
Qed.

Lemma strip_solid back a l : solid a = true → strip back (a :: l) = a :: l.
Proof.
  intros Ha. simpl.
  destruct (solid_not_ws a a a Ha) as (-> & _).
  destruct l as [|b [|c r]]; [done| |].
  - destruct (solid_not_ws a b b Ha) as (_ & -> & -> & _). by destruct back.
  - destruct (solid_not_ws a b b Ha) as (_ & -> & -> & _).
    destruct (solid_not_ws a b c Ha) as (_ & _ & _ & -> & _).
    destruct (solid_not_ws a c b Ha) as (_ & _ & _ & _ & ->).
    by destruct back.
Qed.

Lemma strip_all_solid back l : Forall (λ c, solid c = true) l → strip back l = l.
Proof. destruct 1; [done|]. by apply strip_solid. Qed.

Lemma trim_all_solid s :
  Forall (λ c, solid c = true) (String.list_ascii_of_string s) → trim s = s.
Proof.
  intros Hs. unfold trim.
  rewrite (strip_all_solid false) by done.
  rewrite (strip_all_solid true) by (by apply Forall_rev).
  by rewrite rev_involutive, String.string_of_list_ascii_of_string.
Qed.

Lemma digits_solid d :
  Forall (λ c, solid c = true) (String.list_ascii_of_string (NilEmpty.string_of_uint d)).
Proof. induction d; simpl; constructor; done. Qed.

Lemma String_of_Z_solid z :
  Forall (λ c, solid c = true) (String.list_ascii_of_string (String_of_Z z)).
Proof.
  unfold String_of_Z.
  destruct z as [|p|p]; simpl.
  - by repeat constructor.
  - unfold NilZero.string_of_uint.
    destruct (Pos.to_uint p) eqn:E; try (rewrite <- E; apply digits_solid).
    by repeat constructor.
  - constructor; [done|]. unfold NilZero.string_of_uint.
    destruct (Pos.to_uint p) eqn:E; try (rewrite <- E; apply digits_solid).
    by repeat constructor.
Qed.

Lemma String_of_Z_nonempty z : String_of_Z z ≠ EmptyString.
Proof.
  unfold String_of_Z.
  destruct z as [|p|p]; simpl; [done| |done].
  unfold NilZero.string_of_uint.
  generalize (Unsigned.to_uint_nonnil p).
  by destruct (Pos.to_uint p).
Qed.

Lemma trim_String_of_Z z : trim (String_of_Z z) = String_of_Z z.
Proof. apply trim_all_solid, String_of_Z_solid. Qed.

(** The decimal numeral determines the integer. *)
Lemma Z_of_String_of_Z z : Z_of_String (String_of_Z z) = Some z.
Proof.
  unfold Z_of_String, String_of_Z.
  rewrite NilZero.isi.
  - simpl. by rewrite DecimalZ.of_to.
  - destruct z as [|p|p]; simpl; try done.
    intros [= E]. by apply (Unsigned.to_uint_nonnil p).
  - destruct z as [|p|p]; simpl; try done.
    intros [= E]. by apply (Unsigned.to_uint_nonnil p).
Qed.

(** ** Dates, bigints and surplus arguments *)

Lemma instanceof_Date_typeof h d :
  instanceof_Date h d = true → typeof h d = "object" ∧ instanceof_Error h d = false.
Proof.
  unfold instanceof_Date, instanceof_Error, typeof.
  destruct d; try done.
  by destruct (okind (obj h l)).
Qed.

(** C6: a date given as the second of two or more arguments becomes the
    context [{ ts: date }] and the first argument stays the message; a
    date given as the only argument becomes the context [{ ts: date }]
    with the message [undefined]. *)
Theorem getArgs_date frames h a0 d rest :
  instanceof_Date h d = true →
  getArgs frames (a0 :: d :: rest) h
    = ([a0; VRef (length h)], h ++ [Obj Plain {[ "ts" := Data d ]}])
  ∧ getArgs frames [d] h
    = ([VUndefined; VRef (length h)], h ++ [Obj Plain {[ "ts" := Data d ]}]).
Proof.
  intros Hd. destruct (instanceof_Date_typeof h d Hd) as [Hty Herr].
  unfold getArgs, resolved_args, nth_arg, typeof_in. simpl.
  rewrite Hd, Hty. simpl.
  rewrite isNotEmpty_wrapper. by rewrite orb_true_r.
Qed.

Lemma getArgs_date_witness :
  let h := [Obj (DateObj (Some "2024-02-02T00:00:00.000Z")) ∅] in
  instanceof_Date h (VRef 0%nat) = true
  ∧ getArgs ["logMethod"] [VString "Some message"; VRef 0%nat] h
    = ([VString "Some message"; VRef 1%nat], h ++ [Obj Plain {[ "ts" := Data (VRef 0%nat) ]}])
  ∧ getArgs ["logMethod"] [VRef 0%nat] h
    = ([VUndefined; VRef 1%nat], h ++ [Obj Plain {[ "ts" := Data (VRef 0%nat) ]}]).
Proof.
  intros h. split; [reflexivity|].
  apply (getArgs_date ["logMethod"] h (VString "Some message") (VRef 0%nat) []).
  reflexivity.
Defined.

Lemma isNotEmpty_String_of_Z h z : isNotEmpty h (VString (String_of_Z z)) = true.
Proof.
  unfold isNotEmpty. rewrite trim_String_of_Z.
  generalize (String_of_Z_nonempty z). by destruct (String_of_Z z).
Qed.

(** C8: a bigint given as the only argument becomes the message, as its
    decimal numeral, from which the integer is read back whatever its
    size; the result has no second element, so no context.  The
    revision in [src/index.js] does the same. *)
Theorem getArgs_bigint frames h z :
  getArgs frames [VBigInt z] h = ([VString (String_of_Z z)], h)
  ∧ IndexJs.getArgs frames [VBigInt z] h = ([VString (String_of_Z z)], h)
  ∧ Z_of_String (String_of_Z z) = Some z
  ∧ nth_arg [VString (String_of_Z z)] 1 = VUndefined.
Proof.
  repeat split; [| |apply Z_of_String_of_Z].
  - unfold getArgs, resolved_args. simpl.
    change (ToString (VBigInt z)) with (String_of_Z z).
    by rewrite isNotEmpty_String_of_Z.
  - unfold IndexJs.getArgs, IndexJs.resolved_args. simpl.
    change (ToString (VBigInt z)) with (String_of_Z z).
    by rewrite isNotEmpty_String_of_Z.
Qed.

Lemma nth_arg_take (l : list value) i n : (i < n)%nat → nth_arg (take n l) i = nth_arg l i.
Proof. intros Hi. unfold nth_arg. by rewrite lookup_take_lt. Qed.

Lemma resolved_args_first_two h (l1 l2 : list value) :
  (2 ≤ length l1)%nat → (2 ≤ length l2)%nat → take 2 l1 = take 2 l2 →
  resolved_args l1 h = resolved_args l2 h
  ∧ IndexJs.resolved_args l1 h = IndexJs.resolved_args l2 h.
Proof.
  intros H1 H2 E. unfold resolved_args, IndexJs.resolved_args.
  rewrite <- (nth_arg_take l1 0 2), <- (nth_arg_take l1 1 2) by lia.
  rewrite <- (nth_arg_take l2 0 2), <- (nth_arg_take l2 1 2) by lia.
  rewrite E.
  apply Nat.leb_le in H1 as ->. apply Nat.leb_le in H2 as ->. done.
Qed.

(** C9: two calls with two or more arguments that agree on the first two
    hand the same record to the engine; what follows the second argument
    is not looked at.  This holds in the three revisions. *)
Theorem logMethod_first_two maxSize labels store frames level h (l1 l2 : list value) :
  (2 ≤ length l1)%nat → (2 ≤ length l2)%nat → take 2 l1 = take 2 l2 →
  logMethod maxSize store frames l1 level h = logMethod maxSize store frames l2 level h
  ∧ IndexJs.logMethod store frames l1 level h = IndexJs.logMethod store frames l2 level h
  ∧ Factory.logMethod labels store frames l1 level h
    = Factory.logMethod labels store frames l2 level h.
Proof.
  intros H1 H2 E.
  destruct (resolved_args_first_two h l1 l2 H1 H2 E) as [E0 E1].
  unfold logMethod, outputArgs, IndexJs.logMethod, Factory.logMethod, Factory.getArgs,
    getArgs, IndexJs.getArgs.
  by rewrite E0, E1.
Qed.

Lemma logMethod_first_two_witness :
  let l1 := [VString "Some message"; VNull; VString "dropped"] in
  let l2 := [VString "Some message"; VNull] in
  logMethod 10000 VUndefined [] l1 30 [] = logMethod 10000 VUndefined [] l2 30 []
  ∧ IndexJs.logMethod VUndefined [] l1 30 [] = IndexJs.logMethod VUndefined [] l2 30 []
  ∧ Factory.logMethod (λ _, VString "info") VUndefined [] l1 30 []
    = Factory.logMethod (λ _, VString "info") VUndefined [] l2 30 [].
Proof.
  intros l1 l2.
  apply (logMethod_first_two 10000 (λ _, VString "info") VUndefined [] 30 [] l1 l2);
    [simpl; lia | simpl; lia | reflexivity].
Defined.

(** ** Empty calls *)

Lemma ws2_not_ws1 a b : ws2 a b = true → ws1 a = false.
Proof.
  unfold ws1, ws2. generalize (N_of_ascii a) (N_of_ascii b). intros n m. cbv zeta.
  intros H. apply not_true_iff_false. revert H. bool_to_prop. lia.
Qed.

Lemma ws3_not_ws a b c : ws3 a b c = true → ws1 a = false ∧ ws2 a b = false.
Proof.
  unfold ws1, ws2, ws3.
  generalize (N_of_ascii a) (N_of_ascii b) (N_of_ascii c). intros n m k. cbv zeta.
  intros H. split; apply not_true_iff_false; revert H; bool_to_prop; lia.
Qed.

Lemma strip_blank l : blank l → strip false l = [].
Proof.
  induction 1 as [|a l Ha _ IH|a b l Hab _ IH|a b c l Habc _ IH]; simpl.
  - done.
  - by rewrite Ha.
  - by rewrite (ws2_not_ws1 a b Hab), Hab.
  - destruct (ws3_not_ws a b c Habc) as [-> ->]. by rewrite Habc.
Qed.

Lemma trim_blank s : blank (String.list_ascii_of_string s) → trim s = EmptyString.
Proof. intros Hs. unfold trim. by rewrite strip_blank. Qed.

Lemma isNotEmpty_message_empty h v : message_empty v → isNotEmpty h v = false.
Proof.
  intros [->|(s & -> & Hs)]; [done|].
  unfold isNotEmpty. by rewrite trim_blank.
Qed.

Lemma isNotEmpty_context_empty h v : context_empty h v → isNotEmpty h v = false.
Proof.
  intros [->|[->|(l & -> & Hty & Hkeys)]]; [done..|].
  unfold isNotEmpty. rewrite Hty. simpl.
  apply Object_keys_empty in Hkeys. by rewrite Hkeys.
Qed.

Lemma resolved_args_shape inputArgs h args h1 :
  resolved_args inputArgs h = (args, h1) →
  (length args ≤ 2)%nat ∧ (length h ≤ length h1)%nat.
Proof.
  unfold resolved_args, alloc. intros E.
  destruct inputArgs as [|x [|y rest]]; simpl in E;
    repeat case_match; simplify_eq; simpl; rewrite ?length_app; simpl; lia.
Qed.

Lemma fail_eq frames message h :
  fail frames message h
  = (VRef (S (length h)),
     h ++ [error_object ("fail" :: frames) message; err_wrapper (length h)]).
Proof.
  unfold fail, new_Error, alloc, error_object, err_wrapper.
  rewrite length_app, <- app_assoc. simpl. by rewrite Nat.add_1_r.
Qed.

(** C1, as the code has it: when the message and the context the [if]
    chain arrives at are both empty, [getArgs] returns the pair of
    [undefined] and a new object [{ err: e }]; [e] is a new error object
    whose message is "Empty log message" and whose stack holds the
    frames of [fail], of [getArgs] and of the callers, up to the limit
    of ten frames.  The text is the message of the error, not the first
    element of the pair.  The error and its wrapper are at locations
    that did not exist before the call. *)
Theorem getArgs_empty frames inputArgs h args h1 :
  resolved_args inputArgs h = (args, h1) →
  message_empty (nth_arg args 0) →
  context_empty h1 (nth_arg args 1) →
  getArgs frames inputArgs h
  = ([VUndefined; VRef (S (length h1))],
     h1 ++ [error_object ("fail" :: "getArgs" :: frames) "Empty log message";
            err_wrapper (length h1)])
  ∧ take stackTraceLimit ("fail" :: "getArgs" :: frames)
    = "fail" :: "getArgs" :: take 8 frames
  ∧ (length h ≤ length h1)%nat.
Proof.
  intros E Hm Hc.
  destruct (resolved_args_shape _ _ _ _ E) as [Hlen Hgrow].
  split; [|done].
  unfold getArgs. rewrite E, fail_eq.
  apply (isNotEmpty_message_empty h1) in Hm.
  apply isNotEmpty_context_empty in Hc.
  unfold nth_arg in Hm, Hc.
  destruct args as [|m [|c [|? ?]]]; simpl in *; try lia; try done.
  - by rewrite Hm.
  - by rewrite Hm, Hc.
Qed.

Lemma getArgs_empty_witness :
  let h := [empty_object] in
  resolved_args [VString "  "; VRef 0%nat] h = ([VString "  "; VRef 0%nat], h)
  ∧ message_empty (VString "  ")
  ∧ context_empty h (VRef 0%nat)
  ∧ getArgs ["logMethod"; "LOG"; "app.js"] [VString "  "; VRef 0%nat] h
    = ([VUndefined; VRef 2%nat],
       h ++ [error_object ["fail"; "getArgs"; "logMethod"; "LOG"; "app.js"]
               "Empty log message";
             err_wrapper 1]).
Proof.
  intros h.
  assert (Hm : message_empty (VString "  ")).
  { right. exists "  ". split; [reflexivity|].
    simpl. apply blank_1; [reflexivity|]. apply blank_1; [reflexivity|]. apply blank_nil. }
  assert (Hc : context_empty h (VRef 0%nat)).
  { right. right. exists 0%nat. repeat split; reflexivity. }
  split; [reflexivity|]. split; [exact Hm|]. split; [exact Hc|].
  exact (proj1 (getArgs_empty ["logMethod"; "LOG"; "app.js"] [VString "  "; VRef 0%nat] h
                  [VString "  "; VRef 0%nat] h eq_refl Hm Hc)).
Defined.

(** The claim C1 says that the message of the pair is the text; at the
    call without arguments it is [undefined], also in what [logMethod]
    hands to the engine, where the context is the error merged over the
    ambient store. *)
Lemma empty_call_message_undefined :
  (getArgs ["logMethod"; "LOG"; "app.js"] [] []).1 !! 0 = Some VUndefined
  ∧ (getArgs ["logMethod"; "LOG"; "app.js"] [] []).1 !! 0
    ≠ Some (VString "Empty log message")
  ∧ fst <$> logMethod 10000 VUndefined ["LOG"; "app.js"] [] 30%Z []
    = Returns [VRef 2; VUndefined]
  ∧ ∃ h', logMethod 10000 (VRef 0) ["LOG"; "app.js"] [] 30%Z
            [Obj Plain {[ "tracer" := Data (VNumber (Finite 123%Z)) ]}]
          = Returns ([VRef 3; VUndefined], h')
          ∧ props (obj h' 3) !! "tracer" = Some (Data (VNumber (Finite 123%Z))).
Proof.
  split; [vm_compute; reflexivity|].
  split; [intros H; vm_compute in H; discriminate|].
  split; [vm_compute; reflexivity|].
  eexists. split; vm_compute; reflexivity.
Qed.

(** ** Reading properties *)

Lemma omap_none {A B} (f : A → option B) (l : list A) :
  (∀ x, x ∈ l → f x = None) → omap f l = [].
Proof.
  induction l as [|x l IH]; intros H; [done|]. simpl.
  rewrite (H x) by left. apply IH. intros y Hy. apply H. by right.
Qed.

Lemma read_all_returns m :
  (∀ k s, m !! k = Some s → thrown s = None) →
  read_all m = Returns (value_of <$> m).
Proof.
  intros H. unfold read_all. rewrite omap_none; [done|].
  intros [k s] Hks. apply elem_of_map_to_list in Hks. by apply (H k).
Qed.

Lemma read_all_throws m e : read_all m = Throws e → ∃ k s, m !! k = Some s ∧ thrown s = Some e.
Proof.
  unfold read_all. destruct (omap _ _) as [|e' l] eqn:E; [done|]. intros [= ->].
  assert (He : e ∈ omap (λ kv : string * slot, thrown kv.2) (map_to_list m))
    by (rewrite E; left).
  apply list_elem_of_omap in He as ([k s] & Hks & Hs).
  exists k, s. by apply elem_of_map_to_list in Hks.
Qed.

Lemma read_all_result m r : read_all m = Returns r → r = value_of <$> m.
Proof. unfold read_all. destruct (omap _ _); congruence. Qed.

Lemma read_all_not_exhausted m : read_all m ≠ Exhausted.
Proof. unfold read_all. by destruct (omap _ _). Qed.

Lemma index_props_data elems k s : index_props elems !! k = Some s → ∃ v, s = Data v.
Proof.
  unfold index_props. intros H. apply elem_of_list_to_map_2 in H.
  apply elem_of_lookup_imap in H as (i & v & [= -> ->] & _). by exists v.
Qed.

Lemma own_props_no_throw h l k s :
  no_throw h → own_props (obj h l) !! k = Some s → thrown s = None.
Proof.
  intros Hh. unfold own_props. destruct (okind (obj h l)); try apply Hh.
  rewrite lookup_union_Some_raw. intros [H|[_ H]]; [|by apply (Hh l k)].
  by apply index_props_data in H as [v ->].
Qed.

Lemma spread_returns h v :
  no_throw h → spread h v = Returns (value_of <$> enumerable_props h v).
Proof.
  intros Hh. apply read_all_returns. intros k s.
  destruct v; simpl; try (by rewrite lookup_empty).
  - intros H. by apply index_props_data in H as [v ->].
  - by apply own_props_no_throw.
Qed.

Lemma spread_store_returns h store :
  no_throw h → ∃ a, spread_store h store = Returns a.
Proof.
  intros Hh. unfold spread_store. destruct (truthy store); [|by eexists].
  rewrite spread_returns by done. by eexists.
Qed.

Lemma no_throw_alloc h o :
  no_throw h → (∀ k s, props o !! k = Some s → thrown s = None) → no_throw (h ++ [o]).
Proof.
  intros Hh Ho l k s.
  destruct (lt_eq_lt_dec l (length h)) as [[Hl| ->]|Hl].
  - rewrite obj_alloc_old by done. apply Hh.
  - rewrite obj_alloc_new. apply Ho.
  - rewrite obj_outside by (rewrite length_app; simpl; lia).
    unfold empty_object. simpl. by rewrite lookup_empty.
Qed.

Lemma no_throw_alloc_data h kind (m : gmap string value) :
  no_throw h → no_throw (h ++ [Obj kind (Data <$> m)]).
Proof.
  intros Hh. apply no_throw_alloc; [done|]. intros k s. simpl.
  rewrite lookup_fmap. by destruct (m !! k); intros [= <-].
Qed.

Lemma no_throw_alloc_singleton h kind k v :
  no_throw h → no_throw (h ++ [Obj kind {[ k := Data v ]}]).
Proof.
  intros Hh. apply no_throw_alloc; [done|]. intros k' s. simpl.
  rewrite lookup_singleton_Some. by intros [_ <-].
Qed.

Lemma no_throw_alloc_empty h kind : no_throw h → no_throw (h ++ [Obj kind ∅]).
Proof.
  intros Hh. apply no_throw_alloc; [done|]. intros k s. simpl. by rewrite lookup_empty.
Qed.

Lemma no_throw_fail frames message h : no_throw h → no_throw (fail frames message h).2.
Proof.
  intros Hh. rewrite fail_eq. simpl.
  change (h ++ [error_object ("fail" :: frames) message; err_wrapper (length h)])
    with (h ++ [error_object ("fail" :: frames) message] ++ [err_wrapper (length h)]).
  rewrite app_assoc. apply no_throw_alloc_singleton. by apply no_throw_alloc_empty.
Qed.

Lemma no_throw_resolved_args inputArgs h :
  no_throw h → no_throw (resolved_args inputArgs h).2.
Proof.
  intros Hh. unfold resolved_args, alloc.
  repeat case_match; simpl; try done; by apply no_throw_alloc_singleton.
Qed.

Lemma no_throw_getArgs frames inputArgs h :
  no_throw h → no_throw (getArgs frames inputArgs h).2.
Proof.
  intros Hh. unfold getArgs.
  pose proof (no_throw_resolved_args inputArgs h Hh) as H1.
  destruct (resolved_args inputArgs h) as [args h1]. simpl in H1.
  destruct (existsb _ _); [done|].
  pose proof (no_throw_fail ("getArgs" :: frames) "Empty log message" h1 H1) as H2.
  by destruct (fail _ _ h1).
Qed.

(** ** The serialiser settles *)

Lemma sorted_props_elem m kv : kv ∈ sorted_props m → m !! kv.1 = Some kv.2.
Proof.
  unfold sorted_props. rewrite merge_sort_Permutation.
  destruct kv. by rewrite elem_of_map_to_list.
Qed.

Lemma sorted_props_empty : sorted_props ∅ = [].
Proof. unfold sorted_props. by rewrite map_to_list_empty. Qed.

Lemma sorted_props_singleton k s : sorted_props {[ k := s ]} = [(k, s)].
Proof. unfold sorted_props. by rewrite map_to_list_singleton. Qed.

(** The objects the traversal is inside of are distinct objects of the
    heap, so there are never more of them than the heap holds. *)
Lemma stack_bound (stack : list loc) n :
  NoDup stack → (∀ l, l ∈ stack → l < n) → length stack ≤ n.
Proof.
  intros Hnd Hlt. rewrite <- (length_seq n 0).
  apply submseteq_length, NoDup_submseteq; [done|].
  intros l Hl. apply elem_of_seq. specialize (Hlt l Hl). lia.
Qed.

Lemma push_stack h stack l :
  NoDup stack → (∀ l', l' ∈ stack → l' < length h) →
  l ∉ stack → obj h l ≠ empty_object →
  NoDup (l :: stack) ∧ (∀ l', l' ∈ l :: stack → l' < length h)
  ∧ length stack < length h.
Proof.
  intros Hnd Hin Hl Hobj. apply obj_inside in Hobj.
  assert (Hnd' : NoDup (l :: stack)) by by constructor.
  assert (Hin' : ∀ l', l' ∈ l :: stack → l' < length h).
  { intros l' [->|H]%elem_of_cons; auto. }
  repeat split; try done.
  pose proof (stack_bound _ _ Hnd' Hin') as Hb. simpl in Hb. lia.
Qed.

Lemma stringifySimple_ref fuel h stack l :
  stringifySimple fuel h stack (VRef l)
  = visit (enter match fuel with
                 | O => None
                 | S fuel' => Some (stringifySimple fuel' h)
                 end h stack) h l.
Proof. by destruct fuel. Qed.

Lemma settles_returns {A} h (x : A) : settles h (Returns x).
Proof. left. by exists x. Qed.

Lemma settles_bind_ret {A B} h (r : result A) (g : A → B) :
  settles h r → settles h (r ≫= λ x, Returns (g x)).
Proof.
  intros [[x ->]|(e & -> & He)]; [left; by eexists|right; by exists e].
Qed.

Lemma mapM_settles {A B} h (f : A → result B) (l : list A) :
  Forall (λ x, settles h (f x)) l → settles h (mapM f l).
Proof.
  induction 1 as [|x l Hx _ IH]; simpl; [left; by eexists|].
  destruct Hx as [[y ->]|(e & -> & He)]; [|right; by exists e]. simpl.
  destruct IH as [[ys ->]|(e & -> & He)]; [left; by eexists|right; by exists e].
Qed.

Lemma items_settles h rec elems :
  (∀ v, settles h (rec v)) → settles h (items rec elems).
Proof.
  intros Hrec. unfold items. apply mapM_settles, Forall_forall. intros v _.
  by apply settles_bind_ret.
Qed.

Lemma members_settles h l rec kvs :
  (∀ v, settles h (rec v)) →
  (∀ kv, kv ∈ kvs → props (obj h l) !! kv.1 = Some kv.2) →
  settles h (members rec kvs).
Proof.
  intros Hrec Hkvs. unfold members. apply mapM_settles, Forall_forall. intros kv Hkv.
  destruct (read kv.2) as [x|e] eqn:Hr; simpl.
  - by apply settles_bind_ret.
  - right. exists e. split; [done|]. left. exists l, kv.1, kv.2.
    split; [by apply Hkvs|]. unfold thrown. by rewrite Hr.
Qed.

(** An object that holds something is an object of the heap. *)
Lemma container_settles h l rec :
  (obj h l ≠ empty_object → ∀ v, settles h (rec v)) →
  settles h (container (Some rec) (obj h l)).
Proof.
  intros Hrec. unfold container.
  destruct (okind (obj h l)) as [|elems| | |] eqn:Hk.
  2: { destruct elems as [|x elems]; [apply settles_returns|].
       apply settles_bind_ret, items_settles, Hrec. intros E. by rewrite E in Hk. }
  all: destruct (sorted_props (props (obj h l))) as [|kv kvs] eqn:Hs;
    [apply settles_returns|];
    apply settles_bind_ret, (members_settles h l);
    [ apply Hrec; intros E; rewrite E in Hs;
      change (props empty_object) with (∅ : gmap string slot) in Hs;
      by rewrite sorted_props_empty in Hs
    | intros kv' Hkv'; rewrite <- Hs in Hkv'; by apply sorted_props_elem in Hkv' ].
Qed.

Lemma container_empty rec o :
  (okind o = Plain ∨ ∃ c m s, okind o = ErrorObj c m s) → props o = ∅ →
  container rec o = Returns (Some "{}").
Proof.
  intros Hk Hp. unfold container.
  destruct Hk as [->|(c & m & s & ->)]; by rewrite Hp, sorted_props_empty.
Qed.

Lemma own_props_thrown o k s e :
  own_props o !! k = Some s → thrown s = Some e → props o !! k = Some s.
Proof.
  unfold own_props. destruct (okind o); try done.
  rewrite lookup_union_Some_raw. intros [H|[_ H]] He; [|done].
  apply index_props_data in H as [v ->]. done.
Qed.

Lemma method_not_exhausted h o k : method h o k ≠ Exhausted.
Proof.
  unfold method. destruct (own_props o !! k) as [s|]; [|done].
  by destruct (read s).
Qed.

Lemma of_completion_not_exhausted {A} (c : completion A) : of_completion c ≠ Exhausted.
Proof. by destruct c. Qed.

Lemma Date_toJSON_not_exhausted h o iso : Date_toJSON h o iso ≠ Exhausted.
Proof.
  unfold Date_toJSON.
  assert (Hinvoke : ∀ r : result value,
    r = (method h o "toISOString" ≫= λ m,
           match m with
           | Absent => match iso with
                       | Some text => Returns (VString text)
                       | None => Throws RangeError
                       end
           | Callable call => of_completion call
           | NotCallable => Throws TypeError
           end) → r ≠ Exhausted).
  { intros r ->. pose proof (method_not_exhausted h o "toISOString").
    destruct (method h o "toISOString") as [[| |[v|e]]| |]; simpl; try done.
    by destruct iso. }
  assert (Hstring : ∀ r : result value,
    r = (method h o "toString" ≫= λ m,
           match m with
           | Absent => Returns (VString "Date")
           | Callable call =>
               of_completion call ≫= λ r, if is_object r then Throws TypeError else Returns r
           | NotCallable => Throws TypeError
           end) → r ≠ Exhausted ∧ ∀ v, r = Returns v → is_object v = false).
  { intros r ->. pose proof (method_not_exhausted h o "toString").
    destruct (method h o "toString") as [[| |[v|e]]| |]; simpl; try done.
    - split; [done|]. by intros v [= <-].
    - destruct (is_object v) eqn:Hv; [done|]. split; [done|]. by intros v' [= <-]. }
  pose proof (method_not_exhausted h o "valueOf").
  destruct (method h o "valueOf") as [[| |[v|e]]| |]; simpl; try done.
  - destruct iso; simpl; [by apply Hinvoke|done].
  - destruct (Hstring _ eq_refl) as [Hne Hv].
    match goal with |- context [?r ≫= _] => destruct r as [tv| |] eqn:E end;
      simpl; try done.
    destruct tv as [| | |[z| | |]| | | |]; try (by apply Hinvoke); try done.
    destruct (overflows z); [done|by apply Hinvoke].
  - destruct (is_object v) eqn:Hobj.
    + destruct (Hstring _ eq_refl) as [Hne Hv].
      match goal with |- context [?r ≫= _] => destruct r as [tv| |] eqn:E end;
        simpl; try done.
      destruct tv as [| | |[z| | |]| | | |]; try (by apply Hinvoke); try done.
      destruct (overflows z); [done|by apply Hinvoke].
    + simpl. destruct v as [| | |[z| | |]| | | |]; try (by apply Hinvoke); try done.
      destruct (overflows z); [done|by apply Hinvoke].
Qed.

Lemma toJSON_not_exhausted h o : toJSON h o ≠ Exhausted.
Proof.
  unfold toJSON. pose proof (method_not_exhausted h o "toJSON").
  destruct (method h o "toJSON") as [[| |[v|e]]| |]; simpl; try done.
  destruct (okind o) as [| |iso| |]; try done.
  pose proof (Date_toJSON_not_exhausted h o iso). by destruct (Date_toJSON h o iso).
Qed.

Lemma visit_settles h l enter :
  (∀ l', settles h (enter l')) → settles h (visit enter h l).
Proof.
  intros Henter. unfold visit.
  assert (H : settles h
    (toJSON h (obj h l) ≫= λ replaced,
       match replaced with
       | None => enter l
       | Some (VRef l') => match okind (obj h l') with
                           | FunctionObj _ => Returns None
                           | _ => enter l'
                           end
       | Some r => Returns (primitive_json r)
       end)).
  { pose proof (toJSON_not_exhausted h (obj h l)).
    destruct (toJSON h (obj h l)) as [m|e|] eqn:E; simpl; [| |done].
    - destruct m as [r|]; [|apply Henter].
      destruct r as [| | | | | | |l']; try apply settles_returns.
      destruct (okind (obj h l')); try apply Henter. apply settles_returns.
    - right. exists e. split; [done|]. right. by exists l. }
  destruct (okind (obj h l)); try done. apply settles_returns.
Qed.

(** With as much fuel as there are objects left to enter, the traversal
    settles on every heap, cyclic or not. *)
Lemma stringifySimple_settles fuel : ∀ h stack v,
  NoDup stack → (∀ l, l ∈ stack → l < length h) →
  length h < fuel + length stack →
  settles h (stringifySimple fuel h stack v).
Proof.
  induction fuel as [|fuel IH]; intros h stack v Hnd Hin Hlen.
  - pose proof (stack_bound _ _ Hnd Hin). simpl in Hlen. lia.
  - destruct v as [| | | | | | |l]; try apply settles_returns.
    rewrite stringifySimple_ref. apply visit_settles. intros l'. unfold enter.
    case_bool_decide as Hl; [apply settles_returns|]. simpl.
    apply container_settles. intros Hobj v.
    destruct (push_stack h stack l') as (Hnd' & Hin' & ?); try done.
    apply IH; try done. simpl. lia.
Qed.

Lemma stringify_settles h args : settles h (stringify h args).
Proof.
  unfold stringify. apply settles_bind_ret, items_settles.
  intros v. apply stringifySimple_settles.
  - constructor.
  - intros l Hl. by apply elem_of_nil in Hl.
  - simpl. lia.
Qed.

Lemma settles_no_throw {A} h (r : result A) :
  no_throw h → no_toJSON_throws h → settles h r → ∃ x, r = Returns x.
Proof.
  intros Hg Ht [H|(e & _ & [(l & k & s & Hs & He)|He])]; [done| |by apply Ht in He].
  apply Hg in Hs. congruence.
Qed.

(** When no getter and no [toJSON] method throws, the serialiser
    returns. *)
Lemma stringify_returns h args :
  no_throw h → no_toJSON_throws h → ∃ text, stringify h args = Returns text.
Proof. intros Hg Ht. apply (settles_no_throw h); try done. apply stringify_settles. Qed.

(** ** The size ceiling *)

Lemma obj_pair_first h a b : obj (h ++ [a; b]) (length h) = a.
Proof. unfold obj. rewrite app_nth2 by lia. by rewrite Nat.sub_diag. Qed.

Lemma obj_pair_second h a b : obj (h ++ [a; b]) (S (length h)) = b.
Proof.
  unfold obj. rewrite app_nth2 by lia.
  by replace (S (length h) - length h) with 1 by lia.
Qed.

(** An object or error without enumerable properties is written "{}". *)
Lemma stringifySimple_bare fuel h stack l :
  (okind (obj h l) = Plain ∨ ∃ c m s, okind (obj h l) = ErrorObj c m s) →
  props (obj h l) = ∅ → l ∉ stack →
  stringifySimple fuel h stack (VRef l) = Returns (Some "{}").
Proof.
  intros Hk Hp Hl. rewrite stringifySimple_ref.
  assert (Ho : own_props (obj h l) = ∅)
    by (unfold own_props; by destruct Hk as [->|(c & m & s & ->)]).
  assert (Hbody : enter match fuel with
                        | O => None
                        | S fuel' => Some (stringifySimple fuel' h)
                        end h stack l = Returns (Some "{}")).
  { unfold enter. rewrite bool_decide_eq_false_2 by done. by apply container_empty. }
  unfold visit, toJSON, method. rewrite Ho, lookup_empty.
  destruct Hk as [Hk|(c & m & s & Hk)]; rewrite Hk; simpl; apply Hbody.
Qed.

(** A plain object without a [toJSON] property that the traversal is not
    inside of is entered. *)
Lemma stringifySimple_plain fuel h stack l :
  okind (obj h l) = Plain → props (obj h l) !! "toJSON" = None → l ∉ stack →
  stringifySimple (S fuel) h stack (VRef l)
  = container (Some (stringifySimple fuel h (l :: stack))) (obj h l).
Proof.
  intros Hk Ht Hl. rewrite stringifySimple_ref. unfold visit, toJSON, method, own_props.
  rewrite Hk, Ht. simpl. unfold enter. by rewrite bool_decide_eq_false_2.
Qed.

(** The record [fail] builds serialises to the same twelve bytes whatever
    the message of its error: an error has no enumerable properties. *)
Lemma stringify_fail_record h frames message :
  stringify (h ++ [error_object frames message; err_wrapper (length h)])
    [VRef (S (length h))]
  = Returns fail_record_text.
Proof.
  unfold stringify, items. simpl mapM.
  set (h2 := h ++ [error_object frames message; err_wrapper (length h)]).
  assert (Hw : obj h2 (S (length h)) = err_wrapper (length h)) by apply obj_pair_second.
  assert (He : obj h2 (length h) = error_object frames message) by apply obj_pair_first.
  rewrite stringifySimple_plain; [|by rewrite Hw..|apply not_elem_of_nil].
  rewrite Hw. unfold container, err_wrapper. simpl. rewrite sorted_props_singleton.
  unfold members. simpl mapM. simpl read. simpl of_completion.
  rewrite stringifySimple_bare.
  - reflexivity.
  - right. rewrite He. by eexists _, _, _.
  - by rewrite He.
  - rewrite list_elem_of_singleton. lia.
Qed.

Lemma fail_record_text_bytes : Buffer_byteLength fail_record_text = 12%Z.
Proof. reflexivity. Qed.

Lemma logMethod_unfold maxSize store frames inputArgs level h :
  logMethod maxSize store frames inputArgs level h
  = '(out, h1) ← outputArgs store frames inputArgs h;
    text ← stringify h1 out;
    if (maxSize <? Buffer_byteLength text)%Z then
      Returns ([VRef (S (length h1))],
               h1 ++ [error_object ("fail" :: "logMethod" :: frames)
                        (oversize_message (Buffer_byteLength text) maxSize);
                      err_wrapper (length h1)])
    else Returns (out, h1).
Proof.
  unfold logMethod.
  destruct (outputArgs store frames inputArgs h) as [[out h1]| |]; try done.
  unfold mbind, result_bind.
  destruct (stringify h1 out) as [text| |]; try done.
  by rewrite fail_eq.
Qed.

(** C2, as the code has it: a candidate whose measured size is above the
    ceiling is replaced by the one-element argument list [{ err: e }];
    [e] is a new error whose message is "Log record size of S bytes
    exceeds maximum of M bytes" with both numbers grouped, and no message
    argument is passed.  The replacement is not measured; by the measure
    applied to the candidate it is twelve bytes long whatever the
    ceiling. *)
Theorem logMethod_oversize maxSize store frames inputArgs level h out h1 text :
  outputArgs store frames inputArgs h = Returns (out, h1) →
  stringify h1 out = Returns text →
  (maxSize < Buffer_byteLength text)%Z →
  let size := Buffer_byteLength text in
  let message :=
    "Log record size of " +:+ toLocaleString size
    +:+ " bytes exceeds maximum of " +:+ toLocaleString maxSize +:+ " bytes" in
  let h2 := h1 ++ [error_object ("fail" :: "logMethod" :: frames) message;
                   err_wrapper (length h1)] in
  logMethod maxSize store frames inputArgs level h = Returns ([VRef (S (length h1))], h2)
  ∧ stringify h2 [VRef (S (length h1))] = Returns fail_record_text
  ∧ Buffer_byteLength fail_record_text = 12%Z.
Proof.
  intros Hout Htext Hsize size message h2.
  split; [|split; [apply stringify_fail_record | reflexivity]].
  rewrite logMethod_unfold, Hout. simpl. rewrite Htext. simpl.
  apply Z.ltb_lt in Hsize. by rewrite Hsize.
Qed.

Lemma logMethod_oversize_witness :
  outputArgs VUndefined ["LOG"; "app.js"] [VString "hi"] []
    = Returns ([VRef 0; VString "hi"], [Obj Plain ∅])
  ∧ Buffer_byteLength <$> stringify [Obj Plain ∅] [VRef 0; VString "hi"] = Returns 9%Z
  ∧ fst <$> logMethod 5 VUndefined ["LOG"; "app.js"] [VString "hi"] 30 []
    = Returns [VRef 2].
Proof.
  split; [reflexivity|]. split; [reflexivity|].
  rewrite (proj1 (logMethod_oversize 5 VUndefined ["LOG"; "app.js"] [VString "hi"] 30 []
                    [VRef 0; VString "hi"] [Obj Plain ∅]
                    ("[{}," +:+ strEscape "hi" +:+ "]")
                    eq_refl eq_refl eq_refl)).
  reflexivity.
Defined.

(** The claim C2 says that the replacement carries the text as its
    message and that its own size is below the ceiling.  With a ceiling
    of five bytes the call [info("hi")] is replaced by a record without a
    message argument whose size, by the same measure, is twelve bytes. *)
Lemma oversize_replacement_exceeds_ceiling :
  let r := logMethod 5 VUndefined ["LOG"; "app.js"] [VString "hi"] 30 [] in
  fst <$> r = Returns [VRef 2]
  ∧ [VRef 2] !! 1 = (None : option value)
  ∧ Buffer_byteLength <$> (r ≫= λ '(record, h), stringify h record) = Returns 12%Z
  ∧ (5 < 12)%Z.
Proof. vm_compute. repeat split; reflexivity. Qed.

Lemma outputArgs_eq store frames inputArgs h args h1 A C :
  getArgs ("logMethod" :: frames) inputArgs h = (args, h1) →
  spread_store h1 store = Returns A →
  spread h1 (nth_arg args 1) = Returns C →
  outputArgs store frames inputArgs h
  = Returns ([VRef (length h1); nth_arg args 0], h1 ++ [Obj Plain (Data <$> (C ∪ A))]).
Proof.
  intros Hargs HA HC. unfold outputArgs. rewrite Hargs, HA. simpl. by rewrite HC.
Qed.

Lemma string_app_assoc (a b c : string) : (a +:+ b) +:+ c = a +:+ b +:+ c.
Proof.
  induction a as [|x a IH]; [reflexivity|].
  change (String x ((a +:+ b) +:+ c) = String x (a +:+ b +:+ c)). by f_equal.
Qed.

(** [stringify] of a pair is the array of the representations of the
    two elements. *)
Lemma stringify_pair h a b text :
  stringify h [a; b] = Returns text →
  ∃ ra rb, stringifySimple (S (length h)) h [] a = Returns ra
           ∧ stringifySimple (S (length h)) h [] b = Returns rb
           ∧ text = "[" +:+ default "null" ra +:+ "," +:+ default "null" rb +:+ "]".
Proof.
  unfold stringify, items. simpl mapM.
  destruct (stringifySimple (S (length h)) h [] a) as [ra| |]; simpl; try done.
  destruct (stringifySimple (S (length h)) h [] b) as [rb| |]; simpl; try done.
  intros [= <-]. exists ra, rb. repeat split. by rewrite !string_app_assoc.
Qed.

(** C10: what is compared with the ceiling is the byte length of the
    serialised two-element array of the merged context and the message:
    the merged context is the new object [{ ...store, ...ctx }] holding
    the values as they were read, and the text is the array of its
    representation and that of the message.  Nothing of it depends on
    the level, and no redaction path or engine field enters it.  The
    pair is handed on exactly when that length is at most the ceiling
    and replaced exactly when it is above, by a record whose error names
    that length. *)
Theorem logMethod_measure maxSize store frames inputArgs level h args h1 A C text :
  getArgs ("logMethod" :: frames) inputArgs h = (args, h1) →
  spread_store h1 store = Returns A →
  spread h1 (nth_arg args 1) = Returns C →
  let message := nth_arg args 0 in
  let m := length h1 in
  let h2 := h1 ++ [Obj Plain (Data <$> (C ∪ A))] in
  stringify h2 [VRef m; message] = Returns text →
  let size := Buffer_byteLength text in
  (∃ merged_text message_text,
     stringifySimple (S (length h2)) h2 [] (VRef m) = Returns merged_text
     ∧ stringifySimple (S (length h2)) h2 [] message = Returns message_text
     ∧ text = "[" +:+ default "null" merged_text +:+ ","
              +:+ default "null" message_text +:+ "]")
  ∧ logMethod maxSize store frames inputArgs level h
    = (if (maxSize <? size)%Z
       then Returns ([VRef (S (length h2))],
                     h2 ++ [error_object ("fail" :: "logMethod" :: frames)
                              (oversize_message size maxSize);
                            err_wrapper (length h2)])
       else Returns ([VRef m; message], h2))
  ∧ (logMethod maxSize store frames inputArgs level h = Returns ([VRef m; message], h2)
     ↔ (size ≤ maxSize)%Z)
  ∧ ((∃ w h3, logMethod maxSize store frames inputArgs level h = Returns ([VRef w], h3))
     ↔ (maxSize < size)%Z)
  ∧ (∀ level', logMethod maxSize store frames inputArgs level' h
               = logMethod maxSize store frames inputArgs level h).
Proof.
  intros Hargs HA HC message m h2 Htext size.
  split; [by apply stringify_pair|].
  assert (Hlevel : ∀ level', logMethod maxSize store frames inputArgs level' h
    = if (maxSize <? size)%Z then
        Returns ([VRef (S (length h2))],
                 h2 ++ [error_object ("fail" :: "logMethod" :: frames)
                          (oversize_message size maxSize);
                        err_wrapper (length h2)])
      else Returns ([VRef m; message], h2)).
  { intros level'.
    rewrite logMethod_unfold, (outputArgs_eq _ _ _ _ _ _ _ _ Hargs HA HC). simpl.
    fold m message h2. by rewrite Htext. }
  split; [apply Hlevel|]. rewrite !Hlevel.
  destruct (Z.ltb_spec maxSize size) as [Hlt|Hle].
  - split; [|split].
    + split; [|lia]. intros H. simplify_eq.
    + split; [done|]. intros _. by eexists _, _.
    + intros level'. by rewrite Hlevel.
  - split; [|split].
    + done.
    + split; [|lia]. intros (w & h3 & H). simplify_eq.
    + intros level'. by rewrite Hlevel.
Qed.

Lemma logMethod_measure_witness :
  let h := [Obj Plain {[ "password" := Data (VString "hunter2") ]}] in
  let args := [VString "Some message"; VRef 0] in
  let C : gmap string value := {[ "password" := VString "hunter2" ]} in
  let h2 := h ++ [Obj Plain (Data <$> (C ∪ ∅))] in
  let text := "[{" +:+ strEscape "password" +:+ ":" +:+ strEscape "hunter2" +:+ "},"
              +:+ strEscape "Some message" +:+ "]" in
  getArgs ["logMethod"; "LOG"; "app.js"] args h = (args, h)
  ∧ spread_store h VUndefined = Returns ∅
  ∧ spread h (VRef 0) = Returns C
  ∧ stringify h2 [VRef 1; VString "Some message"] = Returns text
  ∧ Buffer_byteLength text = 39%Z
  ∧ Redact.redacts (redact_paths []) ["password"] = true
  ∧ (logMethod 39 VUndefined ["LOG"; "app.js"] args 30 h
       = Returns ([VRef 1; VString "Some message"], h2)
     ↔ (Buffer_byteLength text ≤ 39)%Z)
  ∧ ((∃ w h3, logMethod 38 VUndefined ["LOG"; "app.js"] args 30 h = Returns ([VRef w], h3))
     ↔ (38 < Buffer_byteLength text)%Z).
Proof.
  intros h args C h2 text.
  assert (Hargs : getArgs ["logMethod"; "LOG"; "app.js"] args h = (args, h))
    by (vm_compute; reflexivity).
  assert (HA : spread_store h VUndefined = Returns ∅) by reflexivity.
  assert (HC : spread h (nth_arg args 1) = Returns C) by (vm_compute; reflexivity).
  assert (Htext : stringify h2 [VRef 1; VString "Some message"] = Returns text)
    by (vm_compute; reflexivity).
  split; [exact Hargs|]. split; [exact HA|]. split; [exact HC|]. split; [exact Htext|].
  split; [reflexivity|]. split; [vm_compute; reflexivity|]. split.
  - exact (proj1 (proj2 (proj2 (logMethod_measure 39 VUndefined ["LOG"; "app.js"] args 30 h
                                  args h ∅ C text Hargs HA HC Htext)))).
  - exact (proj1 (proj2 (proj2 (proj2 (logMethod_measure 38 VUndefined ["LOG"; "app.js"]
                                         args 30 h args h ∅ C text Hargs HA HC Htext))))).
Defined.

(** ** Exceptions *)

Lemma resolved_args_extends inputArgs h args h1 :
  resolved_args inputArgs h = (args, h1) →
  h1 = h ∨ ∃ k v a0, (k = "ts" ∨ k = "err")
                     ∧ h1 = h ++ [Obj Plain {[ k := Data v ]}]
                     ∧ args = [a0; VRef (length h)].
Proof.
  unfold resolved_args, alloc. intros E.
  destruct inputArgs as [|x [|y rest]]; simpl in E;
    repeat case_match; simplify_eq; eauto 8.
Qed.

Lemma index_props_elem elems k s :
  index_props elems !! k = Some s → ∃ v, s = Data v ∧ v ∈ elems.
Proof.
  unfold index_props. intros H. apply elem_of_list_to_map_2 in H.
  apply elem_of_lookup_imap in H as (i & v & [= -> ->] & Hi).
  exists v. split; [done|]. by apply list_elem_of_lookup_2 in Hi.
Qed.

Lemma read_all_reads m r k s :
  read_all m = Returns r → m !! k = Some s → read s = Normal (value_of s).
Proof.
  unfold read_all. destruct (omap _ _) as [|e l] eqn:E; [|done]. intros _ Hs.
  unfold value_of. destruct (read s) as [v|e] eqn:Hr; [done|].
  assert (He : e ∈ omap (λ kv : string * slot, thrown kv.2) (map_to_list m)).
  { apply list_elem_of_omap. exists (k, s). split; [by apply elem_of_map_to_list|].
    simpl. unfold thrown. by rewrite Hr. }
  rewrite E in He. by apply elem_of_nil in He.
Qed.

(** What was allocated since does not throw: an exception a getter of
    the later heap throws is one a getter of the earlier heap throws. *)
Lemma getter_throws_alloc h o e :
  (∀ k s, props o !! k = Some s → thrown s = None) →
  getter_throws (h ++ [o]) e → getter_throws h e.
Proof.
  intros Ho (l & k & s & Hs & He).
  destruct (lt_eq_lt_dec l (length h)) as [[Hl| ->]|Hl].
  - rewrite obj_alloc_old in Hs by done. by exists l, k, s.
  - rewrite obj_alloc_new in Hs. apply Ho in Hs. congruence.
  - rewrite obj_outside in Hs by (rewrite length_app; simpl; lia).
    unfold empty_object in Hs. simpl in Hs. by rewrite lookup_empty in Hs.
Qed.

Lemma getter_throws_alloc_data h kind (m : gmap string value) e :
  getter_throws (h ++ [Obj kind (Data <$> m)]) e → getter_throws h e.
Proof.
  apply getter_throws_alloc. intros k s. simpl.
  rewrite lookup_fmap. by destruct (m !! k); intros [= <-].
Qed.

Lemma getter_throws_alloc_singleton h kind k v e :
  getter_throws (h ++ [Obj kind {[ k := Data v ]}]) e → getter_throws h e.
Proof.
  apply getter_throws_alloc. intros k' s. simpl.
  rewrite lookup_singleton_Some. by intros [_ <-].
Qed.

Lemma function_inside h o f call :
  (∀ call', okind o ≠ FunctionObj call') →
  okind (obj (h ++ [o]) f) = FunctionObj call →
  f < length h ∧ okind (obj h f) = FunctionObj call.
Proof.
  intros Ho Hf.
  destruct (lt_eq_lt_dec f (length h)) as [[Hl| ->]|Hl].
  - by rewrite obj_alloc_old in Hf.
  - rewrite obj_alloc_new in Hf. by apply Ho in Hf.
  - by rewrite obj_outside in Hf by (rewrite length_app; simpl; lia).
Qed.

Lemma method_alloc h o' o k :
  (∀ call, okind o' ≠ FunctionObj call) → method (h ++ [o']) o k = method h o k.
Proof.
  intros Ho. unfold method. destruct (own_props o !! k) as [s|]; [|done].
  destruct (read s) as [t|e]; simpl; [|done]. f_equal.
  destruct t as [| | | | | | |f]; try done.
  destruct (lt_eq_lt_dec f (length h)) as [[Hl| ->]|Hl].
  - by rewrite obj_alloc_old.
  - rewrite obj_alloc_new, (obj_outside h (length h)) by done.
    specialize (Ho). destruct (okind o') eqn:Hk; try done. by destruct (Ho call).
  - by rewrite !obj_outside by (rewrite ?length_app; simpl; lia).
Qed.

Lemma toJSON_alloc h o' o :
  (∀ call, okind o' ≠ FunctionObj call) → toJSON (h ++ [o']) o = toJSON h o.
Proof.
  intros Ho. unfold toJSON, Date_toJSON. by rewrite !method_alloc.
Qed.

Lemma toJSON_no_method h o :
  own_props o = props o →
  props o !! "toJSON" = None → (∀ iso, okind o ≠ DateObj iso) →
  toJSON h o = Returns None.
Proof.
  intros Ho Ht Hk. unfold toJSON, method. rewrite Ho, Ht. simpl.
  destruct (okind o) as [| |iso| |]; try done. by destruct (Hk iso).
Qed.

(** The same for the [toJSON] steps, when the new object is no function
    and its own [toJSON] step, if it throws, throws what one of an object
    that was there throws. *)
Lemma toJSON_throws_alloc h o e :
  (∀ call, okind o ≠ FunctionObj call) →
  (toJSON h o = Throws e → toJSON_throws h e) →
  toJSON_throws (h ++ [o]) e → toJSON_throws h e.
Proof.
  intros Ho Hnew [l Hl]. rewrite toJSON_alloc in Hl by done.
  destruct (lt_eq_lt_dec l (length h)) as [[Hlt| ->]|Hlt].
  - rewrite obj_alloc_old in Hl by done. by exists l.
  - rewrite obj_alloc_new in Hl. by apply Hnew.
  - rewrite obj_outside in Hl by (rewrite length_app; simpl; lia).
    by rewrite toJSON_no_method in Hl.
Qed.

Lemma toJSON_throws_alloc_singleton h k v e :
  k = "ts" ∨ k = "err" →
  toJSON_throws (h ++ [Obj Plain {[ k := Data v ]}]) e → toJSON_throws h e.
Proof.
  intros Hk. apply toJSON_throws_alloc; [done|].
  rewrite toJSON_no_method; try done. simpl.
  rewrite lookup_singleton_ne; [done|]. by destruct Hk as [->| ->].
Qed.

Lemma toJSON_throws_alloc_error h frames message e :
  toJSON_throws (h ++ [error_object frames message]) e → toJSON_throws h e.
Proof. apply toJSON_throws_alloc; [done|]. by rewrite toJSON_no_method. Qed.

(** The [toJSON] of a copy is the [toJSON] of what was copied. *)
Lemma spread_toJSON h v C f e :
  spread h v = Returns C → C !! "toJSON" = Some (VRef f) →
  okind (obj h f) = FunctionObj (Throw e) → toJSON_throws h e.
Proof.
  unfold spread. intros Hspread HC Hf.
  pose proof (read_all_result _ _ Hspread) as ->.
  rewrite lookup_fmap in HC.
  destruct (enumerable_props h v !! "toJSON") as [s|] eqn:Hs; [|done].
  simpl in HC. injection HC as HC.
  pose proof (read_all_reads _ _ _ _ Hspread Hs) as Hr. rewrite HC in Hr.
  destruct v as [| | | |str| | |l]; simpl in Hs; try (by rewrite lookup_empty in Hs).
  - apply index_props_elem in Hs as (x & -> & Hx). simpl in Hr.
    unfold chars in Hx. apply list_elem_of_fmap in Hx as (u & -> & _). done.
  - exists l. unfold toJSON, method. rewrite Hs, Hr. simpl. by rewrite Hf.
Qed.

Lemma toJSON_throws_merged h store ctx A C e :
  spread_store h store = Returns A → spread h ctx = Returns C →
  toJSON_throws (h ++ [Obj Plain (Data <$> (C ∪ A))]) e → toJSON_throws h e.
Proof.
  intros HA HC. apply toJSON_throws_alloc; [done|].
  unfold toJSON, method, own_props. simpl. rewrite lookup_fmap.
  destruct ((C ∪ A) !! "toJSON") as [x|] eqn:Hx; [|done]. simpl.
  destruct x as [| | | | | | |f]; try done.
  destruct (okind (obj h f)) as [| | | |[v|e']] eqn:Hf; try done.
  simpl. intros [= ->].
  apply lookup_union_Some_raw in Hx as [Hx|[_ Hx]].
  - by apply (spread_toJSON h ctx C f).
  - unfold spread_store in HA. destruct (truthy store).
    + by apply (spread_toJSON h store A f).
    + injection HA as <-. by rewrite lookup_empty in Hx.
Qed.

Lemma user_throws_getArgs frames inputArgs h e :
  (getter_throws (getArgs frames inputArgs h).2 e → getter_throws h e)
  ∧ (toJSON_throws (getArgs frames inputArgs h).2 e → toJSON_throws h e).
Proof.
  unfold getArgs.
  destruct (resolved_args inputArgs h) as [args h1] eqn:E.
  assert (H1 : (getter_throws h1 e → getter_throws h e)
               ∧ (toJSON_throws h1 e → toJSON_throws h e)).
  { destruct (resolved_args_extends _ _ _ _ E) as [->|(k & v & a0 & Hk & -> & ->)];
      [done|]. split; [apply getter_throws_alloc_singleton|].
    by apply toJSON_throws_alloc_singleton. }
  destruct (existsb _ _); [done|]. rewrite fail_eq. simpl.
  change (h1 ++ [error_object ("fail" :: "getArgs" :: frames) "Empty log message";
                 err_wrapper (length h1)])
    with (h1 ++ [error_object ("fail" :: "getArgs" :: frames) "Empty log message"]
             ++ [err_wrapper (length h1)]).
  rewrite app_assoc. destruct H1 as [Hg Ht]. split; intros H.
  - apply Hg. apply getter_throws_alloc_singleton in H.
    revert H. apply getter_throws_alloc. intros k s. simpl. by rewrite lookup_empty.
  - apply Ht. apply toJSON_throws_alloc_singleton in H; [|by right].
    by apply toJSON_throws_alloc_error in H.
Qed.

Lemma spread_throws h v e : spread h v = Throws e → getter_throws h e.
Proof.
  unfold spread. intros E.
  apply read_all_throws in E as (key & s & Hs & He).
  destruct v as [| | | | | | |l]; simpl in Hs; try (by rewrite lookup_empty in Hs).
  - apply index_props_data in Hs as [x ->]. done.
  - exists l, key, s. split; [|done]. by apply (own_props_thrown _ _ _ e).
Qed.

Lemma spread_store_throws h store e :
  spread_store h store = Throws e → getter_throws h e.
Proof. unfold spread_store. destruct (truthy store); [apply spread_throws|done]. Qed.

Lemma spread_store_not_exhausted h store : spread_store h store ≠ Exhausted.
Proof.
  unfold spread_store, spread. destruct (truthy store); [|done].
  apply read_all_not_exhausted.
Qed.

(** What a call of [logMethod] comes to, on every heap: it returns a
    record of one or two arguments with a plain object first, in a heap
    whose new objects throw nothing, or it throws what a getter or a
    [toJSON] method of the heap it was given threw. *)
Lemma logMethod_outcome maxSize store frames inputArgs level h :
  (∃ record h', logMethod maxSize store frames inputArgs level h = Returns (record, h')
                ∧ valid_record h' record
                ∧ (∀ e, getter_throws h' e → getter_throws h e)
                ∧ (∀ e, toJSON_throws h' e → toJSON_throws h e))
  ∨ (∃ e, logMethod maxSize store frames inputArgs level h = Throws e
          ∧ (getter_throws h e ∨ toJSON_throws h e)).
Proof.
  rewrite logMethod_unfold. unfold outputArgs.
  pose proof (user_throws_getArgs ("logMethod" :: frames) inputArgs h) as Hg.
  destruct (getArgs _ inputArgs h) as [args h0]. simpl in Hg.
  destruct (spread_store h0 store) as [a|e|] eqn:Ea; simpl.
  - destruct (spread h0 (nth_arg args 1)) as [c|e|] eqn:Ec; simpl.
    + set (h1 := h0 ++ [Obj Plain (Data <$> c ∪ a)]).
      assert (Hgetter : ∀ e, getter_throws h1 e → getter_throws h e).
      { intros e He. by apply getter_throws_alloc_data, Hg in He. }
      assert (HtoJSON : ∀ e, toJSON_throws h1 e → toJSON_throws h e).
      { intros e He. by apply (toJSON_throws_merged h0 store (nth_arg args 1)), Hg in He. }
      destruct (stringify_settles h1 [VRef (length h0); nth_arg args 0])
        as [[text ->]|(e & -> & He)]; simpl.
      * left. destruct (maxSize <? Buffer_byteLength text)%Z;
          eexists _, _; (split; [done|]).
        -- split; [|split].
           ++ exists (S (length h1)). rewrite obj_pair_second, length_app. simpl.
              repeat split; lia.
           ++ intros e He. apply Hgetter.
              change (h1 ++ [error_object ("fail" :: "logMethod" :: frames)
                               (oversize_message (Buffer_byteLength text) maxSize);
                             err_wrapper (length h1)])
                with (h1 ++ [error_object ("fail" :: "logMethod" :: frames)
                               (oversize_message (Buffer_byteLength text) maxSize)]
                         ++ [err_wrapper (length h1)]) in He.
              rewrite app_assoc in He. apply getter_throws_alloc_singleton in He.
              revert He. apply getter_throws_alloc. intros k s. simpl.
              by rewrite lookup_empty.
           ++ intros e He. apply HtoJSON.
              change (h1 ++ [error_object ("fail" :: "logMethod" :: frames)
                               (oversize_message (Buffer_byteLength text) maxSize);
                             err_wrapper (length h1)])
                with (h1 ++ [error_object ("fail" :: "logMethod" :: frames)
                               (oversize_message (Buffer_byteLength text) maxSize)]
                         ++ [err_wrapper (length h1)]) in He.
              rewrite app_assoc in He.
              apply toJSON_throws_alloc_singleton in He; [|by right].
              by apply toJSON_throws_alloc_error in He.
        -- split; [|by split].
           exists (length h0). unfold h1. rewrite obj_alloc_new, length_app. simpl.
           repeat split; lia.
      * right. exists e. split; [done|]. destruct He as [He|He]; auto.
    + right. exists e. split; [done|]. left. by apply spread_throws, Hg in Ec.
    + by apply read_all_not_exhausted in Ec.
  - right. exists e. split; [done|]. left. by apply spread_store_throws, Hg in Ea.
  - by apply spread_store_not_exhausted in Ea.
Qed.

(** C5, as the code has it: when no getter and no [toJSON] method of an
    object of the heap throws, [logMethod] returns, whatever the
    arguments, the store, the ceiling and the shape of the heap, cyclic
    or not; what it returns is one or two arguments with a plain object
    first.  Nothing in the code catches an exception. *)
Theorem logMethod_returns maxSize store frames inputArgs level h :
  no_throw h → no_toJSON_throws h →
  ∃ record h',
    logMethod maxSize store frames inputArgs level h = Returns (record, h')
    ∧ valid_record h' record
    ∧ no_throw h' ∧ no_toJSON_throws h'.
Proof.
  intros Hg Ht.
  destruct (logMethod_outcome maxSize store frames inputArgs level h)
    as [(record & h' & Hr & Hv & Hg' & Ht')|(e & _ & [(l & k & s & Hs & He)|He])].
  - exists record, h'. repeat split; try done.
    + intros l k s Hs. destruct (thrown s) as [e|] eqn:He; [|done].
      destruct (Hg' e) as (l' & k' & s' & Hs' & He'); [by exists l, k, s|].
      apply Hg in Hs'. congruence.
    + intros e He. by apply Ht', Ht in He.
  - apply Hg in Hs. congruence.
  - by apply Ht in He.
Qed.

Lemma logMethod_returns_witness :
  let h := [Obj Plain {[ "foo" := Data (VString "bar"); "context" := Data (VRef 0) ]}] in
  no_throw h ∧ no_toJSON_throws h
  ∧ ∃ record h',
      logMethod 10000 VUndefined ["LOG"; "app.js"] [VString "Some message"; VRef 0] 30 h
        = Returns (record, h')
      ∧ valid_record h' record ∧ no_throw h' ∧ no_toJSON_throws h'.
Proof.
  intros h.
  assert (Hg : no_throw h).
  { intros [|l] k s; simpl.
    - rewrite lookup_insert_Some, lookup_singleton_Some.
      by intros [[_ <-]|[_ [_ <-]]].
    - destruct l; simpl; by rewrite lookup_empty. }
  assert (Ht : no_toJSON_throws h).
  { intros e [l Hl]. by destruct l as [|[|l]]. }
  split; [exact Hg|]. split; [exact Ht|].
  exact (logMethod_returns 10000 VUndefined ["LOG"; "app.js"]
           [VString "Some message"; VRef 0] 30 h Hg Ht).
Defined.

(** The claim C5 says that no exception reaches the caller for any input.
    A context with a getter that throws is copied by the object spread of
    [logMethod], which calls the getter; a context with a [toJSON]
    method that throws is measured by the serialiser, which calls the
    method.  In both calls the exception leaves [logMethod]. *)
Lemma thrown_exception_escapes :
  (let h := [Obj Plain {[ "secret" := Accessor (Throw (VString "boom")) ]}] in
   logMethod 10000 VUndefined ["LOG"; "app.js"] [VString "Some message"; VRef 0] 30 h
   = Throws (VString "boom"))
  ∧ (let h := [Obj Plain {[ "toJSON" := Data (VRef 1) ]};
               Obj (FunctionObj (Throw (VString "boom"))) ∅] in
     logMethod 10000 VUndefined ["LOG"; "app.js"] [VString "Some message"; VRef 0] 30 h
     = Throws (VString "boom")).
Proof. split; vm_compute; reflexivity. Qed.

(** ** The merge *)

(** C3, as the code has it: the first element of [outputArgs] is a new
    object that maps every key of the explicit context [C] (what the
    spread of the context returned by [getArgs] reads) to its value in
    [C], and every other key to its value in the ambient context [A]
    (what the spread of the store reads).  [logMethod] hands on that
    object when the measured size is within the ceiling; when it is
    above, what it hands on is the record of the oversize error, whose
    only key is [err]. *)
Theorem outputArgs_merge store frames inputArgs h args h1 A C :
  getArgs ("logMethod" :: frames) inputArgs h = (args, h1) →
  spread_store h1 store = Returns A →
  spread h1 (nth_arg args 1) = Returns C →
  let m := length h1 in
  let h2 := h1 ++ [Obj Plain (Data <$> (C ∪ A))] in
  outputArgs store frames inputArgs h = Returns ([VRef m; nth_arg args 0], h2)
  ∧ (∀ k, props (obj h2 m) !! k
          = Data <$> match C !! k with Some v => Some v | None => A !! k end)
  ∧ (∀ maxSize level text,
       stringify h2 [VRef m; nth_arg args 0] = Returns text →
       ((Buffer_byteLength text ≤ maxSize)%Z →
        logMethod maxSize store frames inputArgs level h
        = Returns ([VRef m; nth_arg args 0], h2))
       ∧ ((maxSize < Buffer_byteLength text)%Z →
          ∃ h3, logMethod maxSize store frames inputArgs level h
                = Returns ([VRef (S (length h2))], h3)
                ∧ props (obj h3 (S (length h2))) = {[ "err" := Data (VRef (length h2)) ]})).
Proof.
  intros Hargs HA HC m h2. subst m h2.
  pose proof (outputArgs_eq store frames inputArgs h args h1 A C Hargs HA HC) as Hout.
  split; [done|]. split.
  - intros k. rewrite obj_alloc_new. simpl.
    rewrite lookup_fmap. f_equal. rewrite lookup_union.
    destruct (C !! k), (A !! k); done.
  - intros maxSize level text Htext.
    rewrite logMethod_unfold, Hout. simpl. rewrite Htext. simpl. split; intros Hsize.
    + apply Z.ltb_ge in Hsize. by rewrite Hsize.
    + apply Z.ltb_lt in Hsize. rewrite Hsize. eexists. split; [done|].
      by rewrite obj_pair_second.
Qed.

Lemma outputArgs_merge_witness :
  let store := VRef 0 in
  let h := [Obj Plain {[ "tracer" := Data (VNumber (Finite 123));
                         "foo" := Data (VString "baz") ]};
            Obj Plain {[ "foo" := Data (VString "bar") ]}] in
  let A : gmap string value := {[ "tracer" := VNumber (Finite 123); "foo" := VString "baz" ]} in
  let C : gmap string value := {[ "foo" := VString "bar" ]} in
  let h2 := h ++ [Obj Plain (Data <$> (C ∪ A))] in
  outputArgs store ["LOG"; "app.js"] [VString "Some message"; VRef 1] h
    = Returns ([VRef 2; VString "Some message"], h2)
  ∧ props (obj h2 2) !! "foo" = Some (Data (VString "bar"))
  ∧ props (obj h2 2) !! "tracer" = Some (Data (VNumber (Finite 123)))
  ∧ logMethod 43 store ["LOG"; "app.js"] [VString "Some message"; VRef 1] 30 h
    = Returns ([VRef 2; VString "Some message"], h2).
Proof.
  intros store h A C h2.
  destruct (outputArgs_merge store ["LOG"; "app.js"] [VString "Some message"; VRef 1] h
              [VString "Some message"; VRef 1] h A C eq_refl eq_refl eq_refl)
    as (Hout & Hget & Hlog).
  split; [exact Hout|]. split; [exact (Hget "foo")|]. split; [exact (Hget "tracer")|].
  refine (proj1 (Hlog 43%Z 30%Z _ _) _); [vm_compute; reflexivity|].
  vm_compute. discriminate.
Defined.

(** The claim C3 speaks of the record that is emitted.  With a ceiling
    of thirty bytes the merged context of the example, which measures
    forty-three, is not handed on: the engine receives the record of the
    oversize error, which has neither [foo] nor [tracer]. *)
Lemma oversize_merge_not_handed_on :
  let h := [Obj Plain {[ "tracer" := Data (VNumber (Finite 123));
                         "foo" := Data (VString "baz") ]};
            Obj Plain {[ "foo" := Data (VString "bar") ]}] in
  ∃ h', logMethod 30 (VRef 0) ["LOG"; "app.js"] [VString "Some message"; VRef 1] 30 h
        = Returns ([VRef 4], h')
        ∧ props (obj h' 4) !! "foo" = None
        ∧ props (obj h' 4) !! "tracer" = None
        ∧ props (obj h' 4) !! "err" = Some (Data (VRef 3)).
Proof. eexists. split; [vm_compute; reflexivity|]. repeat split; vm_compute; reflexivity. Qed.

(** The revision in [src/index.js] merges in the same order. *)
Lemma IndexJs_logMethod_merge store frames inputArgs level h args h1 A C :
  IndexJs.getArgs ("logMethod" :: frames) inputArgs h = (args, h1) →
  spread_store h1 store = Returns A →
  spread h1 (nth_arg args 1) = Returns C →
  IndexJs.logMethod store frames inputArgs level h
  = Returns ([VRef (length h1); nth_arg args 0], h1 ++ [Obj Plain (Data <$> (C ∪ A))]).
Proof.
  intros Hargs HA HC. unfold IndexJs.logMethod. rewrite Hargs, HA. simpl. by rewrite HC.
Qed.

(** The first revision, [src/unnamed/part_001], spreads the store last:
    there the ambient value wins, against the comment above its
    [logMethod], which says that the context is preferred. *)
Lemma Factory_store_wins :
  let h := [Obj Plain {[ "tracer" := Data (VNumber (Finite 123));
                         "foo" := Data (VString "baz") ]};
            Obj Plain {[ "foo" := Data (VString "bar") ]}] in
  ∃ h2, Factory.logMethod (λ _, VString "info") (VRef 0) ["LOG"; "app.js"]
          [VString "Some message"; VRef 1] 30 h
        = Returns ([VRef 2; VString "Some message"], h2)
        ∧ props (obj h2 2) !! "foo" = Some (Data (VString "baz")).
Proof. eexists. split; vm_compute; reflexivity. Qed.

(** ** Errors *)

Lemma spread_data h (m : gmap string value) l :
  okind (obj h l) = Plain → props (obj h l) = Data <$> m →
  spread h (VRef l) = Returns m.
Proof.
  intros Hk Hp. unfold spread, enumerable_props, own_props. rewrite Hk, Hp.
  rewrite read_all_returns.
  - f_equal. rewrite <- map_fmap_compose. apply map_fmap_id.
  - intros k s. rewrite lookup_fmap. by destruct (m !! k); intros [= <-].
Qed.

Lemma isNotEmpty_plain h c k s :
  okind (obj h c) = Plain → props (obj h c) !! k = Some s → isNotEmpty h (VRef c) = true.
Proof.
  intros Hk Hs. unfold isNotEmpty, typeof. rewrite Hk. simpl.
  destruct (Object_keys h c) eqn:E; [|done].
  apply Object_keys_empty in E. unfold own_props in E. rewrite Hk in E.
  by rewrite E, lookup_empty in Hs.
Qed.

Lemma instanceof_Error_inside h e :
  instanceof_Error h (VRef e) = true →
  typeof h (VRef e) = "object" ∧ instanceof_Date h (VRef e) = false ∧ e < length h.
Proof.
  unfold instanceof_Error, instanceof_Date, typeof.
  intros H. repeat split; try by destruct (okind (obj h e)).
  apply obj_inside. intros E. by rewrite E in H.
Qed.

Lemma plain_not_special h c :
  okind (obj h c) = Plain →
  typeof h (VRef c) = "object" ∧ instanceof_Date h (VRef c) = false
  ∧ instanceof_Error h (VRef c) = false.
Proof. unfold instanceof_Error, instanceof_Date, typeof. by intros ->. Qed.

(** What [getArgs] makes of an error that is passed: a context whose
    [err] is the error, or whose [error] is the error while it has no
    [err]. *)
Lemma getArgs_passes_error frames h store e inputArgs :
  instanceof_Error h (VRef e) = true →
  passes_error h store e inputArgs →
  no_throw h →
  ∃ args h1 C,
    getArgs frames inputArgs h = (args, h1)
    ∧ spread h1 (nth_arg args 1) = Returns C
    ∧ no_throw h1
    ∧ (∃ h', h1 = h ++ h')
    ∧ (C !! "err" = Some (VRef e)
       ∨ (C !! "err" = None ∧ C !! "error" = Some (VRef e)
          ∧ h1 = h ∧ err_key_free h store)).
Proof.
  intros He Hpass Hh.
  destruct (instanceof_Error_inside h e He) as (Hty & Hdate & Hin).
  assert (Hwrapped : ∀ c, wraps h store c e →
    isNotEmpty h (VRef c) = true
    ∧ typeof h (VRef c) = "object" ∧ instanceof_Date h (VRef c) = false
    ∧ instanceof_Error h (VRef c) = false
    ∧ ∃ C, spread h (VRef c) = Returns C
        ∧ (C !! "err" = Some (VRef e)
           ∨ (C !! "err" = None ∧ C !! "error" = Some (VRef e)
              ∧ err_key_free h store))).
  { intros c (Hk & Hc). destruct (plain_not_special h c Hk) as (? & ? & ?).
    repeat split; try done.
    - destruct Hc as [Hc|(Hc & _)]; by eapply isNotEmpty_plain.
    - rewrite spread_returns by done. eexists. split; [done|].
      simpl. unfold own_props. rewrite Hk, !lookup_fmap.
      destruct Hc as [->|(-> & -> & ?)]; [by left|by right]. }
  assert (Hnew : ∀ a0, 
    let h1 := h ++ [Obj Plain {[ "err" := Data (VRef e) ]}] in
    existsb (isNotEmpty h1) [a0; VRef (length h)] = true
    ∧ ∃ C, spread h1 (VRef (length h)) = Returns C ∧ C !! "err" = Some (VRef e)).
  { intros a0 h1. split.
    - simpl. unfold h1. by rewrite isNotEmpty_wrapper, orb_true_r.
    - rewrite spread_returns by by apply no_throw_alloc_singleton.
      eexists. split; [done|]. simpl. unfold h1. rewrite obj_alloc_new.
      unfold own_props. simpl. by rewrite lookup_fmap, lookup_singleton_eq. }
  destruct Hpass as [|a0 rest|c Hc|a0 c rest Hc].
  - destruct (Hnew VUndefined) as (Hne & C & HC & Herr).
    exists [VUndefined; VRef (length h)], (h ++ [Obj Plain {[ "err" := Data (VRef e) ]}]), C.
    split; [|split; [done|split; [by apply no_throw_alloc_singleton|split; [by eexists|by left]]]].
    unfold getArgs, resolved_args, nth_arg, typeof_in. simpl.
    rewrite He, Hdate, Hty. simpl. simpl in Hne. by rewrite Hne.
  - destruct (Hnew a0) as (Hne & C & HC & Herr).
    exists [a0; VRef (length h)], (h ++ [Obj Plain {[ "err" := Data (VRef e) ]}]), C.
    split; [|split; [done|split; [by apply no_throw_alloc_singleton|split; [by eexists|by left]]]].
    unfold getArgs, resolved_args, nth_arg, typeof_in. simpl.
    rewrite He, Hdate. simpl. simpl in Hne. by rewrite Hne.
  - destruct (Hwrapped c Hc) as (Hne & Hcty & Hcd & Hce & C & HC & Hkeys).
    exists [VUndefined; VRef c], h, C.
    split; [|split; [done|split; [done|split; [exists []; by rewrite app_nil_r|]]]].
    + unfold getArgs, resolved_args, nth_arg, typeof_in. simpl.
      rewrite Hcty, Hcd, Hce. simpl. by rewrite Hne.
    + destruct Hkeys as [?|(? & ? & ?)]; [by left|by right].
  - destruct (Hwrapped c Hc) as (Hne & Hcty & Hcd & Hce & C & HC & Hkeys).
    exists [a0; VRef c], h, C.
    split; [|split; [done|split; [done|split; [exists []; by rewrite app_nil_r|]]]].
    + unfold getArgs, resolved_args, nth_arg, typeof_in. simpl.
      rewrite Hcd, Hce. simpl. by rewrite Hne, orb_true_r.
    + destruct Hkeys as [?|(? & ? & ?)]; [by left|by right].
Qed.

Lemma spread_store_err_free h store A :
  err_key_free h store → spread_store h store = Returns A → A !! "err" = None.
Proof.
  unfold err_key_free, spread_store. destruct (truthy store).
  - intros Hfree HA%read_all_result. subst A. by rewrite lookup_fmap, Hfree.
  - intros _ [= <-]. apply lookup_empty.
Qed.

(** C4, as the code has it: an error passed alone, passed as the second
    argument, or held by a plain context object under [err], or under
    [error] when neither the context nor the store has an [err] key,
    is the [err] of the object [formatters.log] returns for the record,
    provided the record was not replaced for its size.  It is the error
    object itself, unchanged: constructor name, message, stack and own
    enumerable properties. *)
Theorem logMethod_error maxSize store frames inputArgs level h e record h' :
  instanceof_Error h (VRef e) = true →
  passes_error h store e inputArgs →
  no_throw h →
  logMethod maxSize store frames inputArgs level h = Returns (record, h') →
  length record = 2 →
  ∃ f h'',
    formatters_log (nth_arg record 0) h' = Returns (VRef f, h'')
    ∧ props (obj h'' f) !! "err" = Some (Data (VRef e))
    ∧ obj h'' e = obj h e.
Proof.
  intros He Hpass Hh Hlog Hlen.
  destruct (instanceof_Error_inside h e He) as (_ & _ & Hin).
  destruct (getArgs_passes_error ("logMethod" :: frames) h store e inputArgs He Hpass Hh)
    as (args & h1 & C & Hargs & HC & H1 & [hx Hh1] & Hkeys).
  destruct (spread_store_returns h1 store H1) as [A HA].
  pose proof (outputArgs_eq store frames inputArgs h args h1 A C Hargs HA HC) as Hout.
  rewrite logMethod_unfold, Hout in Hlog. simpl in Hlog.
  destruct (stringify _ [VRef (length h1); nth_arg args 0]) as [text| |];
    simpl in Hlog; try done.
  destruct (maxSize <? Buffer_byteLength text)%Z; simplify_eq.
  set (M := C ∪ A).
  set (h2 := (h ++ hx) ++ [Obj Plain (Data <$> M)]).
  assert (HM : spread h2 (VRef (length (h ++ hx))) = Returns M).
  { apply spread_data; unfold h2; by rewrite obj_alloc_new. }
  exists (length h2), (h2 ++ [Obj Plain (Data <$> (delete "error" M
                                   ∪ {[ "err" := default VUndefined (M !! "error") ]}))]).
  split; [|split].
  - unfold formatters_log, nth_arg. simpl. by rewrite HM.
  - rewrite obj_alloc_new. simpl. rewrite lookup_fmap.
    assert (Herr : (delete "error" M ∪ {[ "err" := default VUndefined (M !! "error") ]})
                   !! "err" = Some (VRef e)); [|by rewrite Herr].
    rewrite lookup_union, lookup_delete_ne, lookup_singleton_eq by done.
    unfold M. rewrite !lookup_union.
    destruct Hkeys as [->|(-> & -> & Heq & Hfree)].
    + by destruct (A !! "err").
    + rewrite Heq in HA. rewrite (spread_store_err_free h store A Hfree HA).
      by destruct (A !! "error").
  - unfold h2. rewrite !obj_alloc_old; [done|rewrite ?length_app; lia..].
Qed.

Lemma logMethod_error_witness :
  let h := [Obj (ErrorObj "Error" "Oh Noes!" ["app.js"])
              {[ "wibble" := Data (VNumber (Finite 123%Z)) ]}] in
  let record := [VRef 2; VUndefined] in
  let h' := h ++ [Obj Plain {[ "err" := Data (VRef 0) ]};
                  Obj Plain {[ "err" := Data (VRef 0) ]}] in
  instanceof_Error h (VRef 0) = true
  ∧ passes_error h VUndefined 0 [VRef 0]
  ∧ no_throw h
  ∧ logMethod 10000 VUndefined ["LOG"; "app.js"] [VRef 0] 50 h = Returns (record, h')
  ∧ ∃ f h'',
      formatters_log (nth_arg record 0) h' = Returns (VRef f, h'')
      ∧ props (obj h'' f) !! "err" = Some (Data (VRef 0))
      ∧ obj h'' 0 = obj h 0.
Proof.
  intros h record h'.
  assert (Hh : no_throw h).
  { intros [|l] k s; simpl.
    - rewrite lookup_singleton_Some. by intros [_ <-].
    - destruct l; simpl; by rewrite lookup_empty. }
  assert (Hlog : logMethod 10000 VUndefined ["LOG"; "app.js"] [VRef 0] 50 h
                 = Returns (record, h')) by (vm_compute; reflexivity).
  split; [reflexivity|]. split; [constructor|]. split; [exact Hh|]. split; [exact Hlog|].
  exact (logMethod_error 10000 VUndefined ["LOG"; "app.js"] [VRef 0] 50 h 0 record h'
           eq_refl (error_alone h VUndefined 0) Hh Hlog eq_refl).
Defined.

(** The claim C4 says that the record carries the error as [ctx.err] for
    every error passed.  An error held under [error] by a context that
    also has an [err] key is dropped by [formatters.log], which lets an
    existing [err] win; and an error passed with a record that exceeds
    the ceiling is dropped with it. *)
Lemma error_not_carried :
  let e := Obj (ErrorObj "Error" "Oh Noes!" ["app.js"]) ∅ in
  let both := Obj Plain {[ "error" := Data (VRef 0); "err" := Data (VString "x") ]} in
  (∃ f h'',
     ('(record, h') ← logMethod 10000 VUndefined ["LOG"; "app.js"]
                        [VString "Some message"; VRef 1] 50 [e; both];
      formatters_log (nth_arg record 0) h') = Returns (VRef f, h'')
     ∧ props (obj h'' f) !! "err" = Some (Data (VString "x")))
  ∧ (∃ f h'',
       ('(record, h') ← logMethod 20 VUndefined ["LOG"; "app.js"]
                          [VString "Some message"; VRef 0] 50 [e];
        formatters_log (nth_arg record 0) h') = Returns (VRef f, h'')
       ∧ props (obj h'' f) !! "err" = Some (Data (VRef 3))
       ∧ okind (obj h'' 3)
         = ErrorObj "Error" "Log record size of 27 bytes exceeds maximum of 20 bytes"
             ["fail"; "logMethod"; "LOG"; "app.js"]).
Proof.
  split.
  - eexists _, _. split; vm_compute; reflexivity.
  - eexists _, _. split; [vm_compute; reflexivity|]. split; vm_compute; reflexivity.
Qed.

(** ** Redaction paths *)

Lemma redacts_app paths extra path :
  Redact.redacts (paths ++ extra) path
  = Redact.redacts paths path || Redact.redacts extra path.
Proof. unfold Redact.redacts. apply existsb_app. Qed.

Lemma redacts_by p paths path :
  In p paths → Redact.matches (Redact.segments p) path = true →
  Redact.redacts paths path = true.
Proof. intros Hp Hm. apply existsb_exists. by exists p. Qed.

Ltac cover p :=
  apply (redacts_by p); [simpl; tauto | vm_compute; reflexivity].

Ltac cover_any :=
  first
    [ cover "password" | cover "email" | cover "*.password" | cover "*.email"
    | cover "*[*].password" | cover "*[*].email"
    | cover "req.headers.*" | cover "request.headers.*" | cover "res.headers.*"
    | cover "resp.headers.*" | cover "response.headers.*"
    | cover "res.req.headers.*" | cover "resp.req.headers.*"
    | cover "response.request.headers.*"
    | cover "err.req.headers.*" | cover "err.request.headers.*"
    | cover "err.res.headers.*" | cover "err.resp.headers.*"
    | cover "err.response.headers.*"
    | cover "err.res.req.headers.*" | cover "err.resp.req.headers.*"
    | cover "err.response.request.headers.*" ].

Lemma covered_redacts path : covered path → Redact.redacts (redact_paths []) path = true.
Proof.
  intros [(prefix & key & -> & Hkey & Hlen)|(wrapper & name & -> & Hw)].
  - apply list_elem_of_In in Hkey. simpl in Hkey.
    destruct prefix as [|a [|b [|c rest]]]; simpl in Hlen; try lia;
      destruct Hkey as [<-|[<-|[]]]; cover_any.
  - apply list_elem_of_In in Hw. unfold header_wrappers in Hw. simpl in Hw.
    repeat (destruct Hw as [<-|Hw]; [cover_any|]). done.
Qed.

Ltac segments_in H :=
  repeat match type of H with
  | context [Redact.segments ?p] =>
      let s := eval vm_compute in (Redact.segments p) in
      change (Redact.segments p) with s in H
  end.

Ltac solve_covered :=
  first
    [ left; eexists [], _; split; [reflexivity|]; split; [set_solver|simpl; lia]
    | left; eexists [_], _; split; [reflexivity|]; split; [set_solver|simpl; lia]
    | left; eexists [_; _], _; split; [reflexivity|]; split; [set_solver|simpl; lia]
    | right; eexists [_], _; split; [reflexivity|]; unfold header_wrappers; set_solver
    | right; eexists [_; _], _; split; [reflexivity|]; unfold header_wrappers; set_solver
    | right; eexists [_; _; _], _; split; [reflexivity|];
      unfold header_wrappers; set_solver ].

Lemma matches_covered p path :
  In p (redact_paths []) → Redact.matches (Redact.segments p) path = true →
  covered path.
Proof.
  intros Hp Hm. simpl in Hp.
  repeat (destruct Hp as [<-|Hp];
    [ segments_in Hm;
      destruct path as [|k1 [|k2 [|k3 [|k4 [|k5 [|k6 rest]]]]]];
      cbn [Redact.matches] in Hm; try discriminate Hm;
      unfold Redact.segment_matches in Hm;
      repeat (rewrite ?andb_true_iff, ?orb_true_iff, ?String.eqb_eq in Hm);
      destruct_and?; destruct_or?; simplify_eq; solve_covered
    | ]).
  done.
Qed.

(** C7, as the code has it: the paths the core hands to the engine point
    exactly at a [password] or [email] at the top of the context, one
    level down or two levels down (inside an object or an element of an
    array), at what is directly inside the [headers] of [req], [request],
    [res], [resp] and [response], of [res.req], [resp.req] and
    [response.request], and of these eight under [err], and at what the
    caller's own paths point at.  The core only supplies the paths. *)
Theorem redact_paths_cover extra path :
  Redact.redacts (redact_paths extra) path = true
  ↔ covered path ∨ Redact.redacts extra path = true.
Proof.
  change (redact_paths extra) with (redact_paths [] ++ extra).
  rewrite redacts_app, orb_true_iff. split.
  - intros [H|H]; [left|by right].
    apply existsb_exists in H as (p & Hp & Hm). by apply (matches_covered p).
  - intros [H|H]; [left|by right]. by apply covered_redacts.
Qed.

(** The claim C7 says that a [password] or [email] is redacted at any
    depth, and a [headers] block under any request or response.  Three
    levels down, and under a request that is not at one of the listed
    places, the paths do not match. *)
Lemma deep_password_not_covered :
  Redact.redacts (redact_paths []) ["a"; "b"; "c"; "password"] = false
  ∧ Redact.redacts (redact_paths []) ["order"; "customer"; "contact"; "email"] = false
  ∧ Redact.redacts (redact_paths []) ["upstream"; "request"; "headers"; "authorization"]
    = false
  ∧ Redact.redacts (redact_paths []) ["response"; "req"; "headers"; "authorization"]
    = false.
Proof. vm_compute. repeat split; reflexivity. Qed.

(** ** Grouped numerals *)

Lemma filter_group3 n : ∀ l, length l ≤ n →
  filter (λ c, c ≠ ","%char) (group3 l) = filter (λ c, c ≠ ","%char) l.
Proof.
  induction n as [|n IH]; intros l Hl.
  - destruct l; [done|simpl in Hl; lia].
  - destruct l as [|a [|b [|c [|d rest]]]]; try done.
    change (group3 (a :: b :: c :: d :: rest))
      with (a :: b :: c :: ","%char :: group3 (d :: rest)).
    rewrite !(filter_cons _ a), !(filter_cons _ b), !(filter_cons _ c).
    rewrite (filter_cons_False _ ","%char) by (intros H; by apply H).
    rewrite IH by (simpl in *; lia). done.
Qed.

Lemma filter_solid_digits (l : list ascii) :
  Forall (λ c, solid c = true) l → ","%char ∉ l →
  filter (λ c, c ≠ ","%char) l = l.
Proof.
  intros _ Hc. induction l as [|a l IH]; [done|].
  apply not_elem_of_cons in Hc as [Ha Hl].
  rewrite filter_cons_True by done. by rewrite IH.
Qed.

Lemma digits_no_comma d :
  ","%char ∉ String.list_ascii_of_string (NilEmpty.string_of_uint d).
Proof.
  induction d; simpl; rewrite ?not_elem_of_cons; try (split; [done|]); try done.
  apply not_elem_of_nil.
Qed.

Lemma String_of_Z_no_comma z : ","%char ∉ String.list_ascii_of_string (String_of_Z z).
Proof.
  unfold String_of_Z. destruct z as [|p|p].
  - compute_done.
  - simpl. unfold NilZero.string_of_uint.
    destruct (Pos.to_uint p) eqn:E; try (rewrite <- E; apply digits_no_comma).
    compute_done.
  - simpl. apply not_elem_of_cons. split; [done|]. unfold NilZero.string_of_uint.
    destruct (Pos.to_uint p) eqn:E; try (rewrite <- E; apply digits_no_comma).
    compute_done.
Qed.

Lemma list_ascii_of_string_app s t :
  String.list_ascii_of_string (s +:+ t)
  = String.list_ascii_of_string s ++ String.list_ascii_of_string t.
Proof. induction s as [|c s IH]; [done|]. simpl. by rewrite <- IH. Qed.

Lemma filter_rev_comma (l : list ascii) :
  filter (λ c, c ≠ ","%char) (rev l) = rev (filter (λ c, c ≠ ","%char) l).
Proof.
  induction l as [|a l IH]; [done|]. simpl rev.
  rewrite filter_app, IH, filter_cons.
  destruct (decide (a ≠ ","%char)).
  - by rewrite filter_cons_True.
  - rewrite filter_cons_False by done. by rewrite filter_nil, app_nil_r.
Qed.

(** Grouping only inserts separators: without them the grouped numeral is
    the decimal numeral. *)
Lemma ungroup_toLocaleString z : ungroup (toLocaleString z) = String_of_Z z.
Proof.
  unfold ungroup, toLocaleString.
  rewrite list_ascii_of_string_app, String.list_ascii_of_string_of_list_ascii.
  rewrite filter_app, filter_rev_comma, (filter_group3 _ _ (le_n _)), filter_rev_comma,
    rev_involutive.
  rewrite (filter_solid_digits (String.list_ascii_of_string (String_of_Z (Z.abs z))))
    by (apply String_of_Z_solid || apply String_of_Z_no_comma).
  destruct z as [|p|p]; simpl; by rewrite ?String.string_of_list_ascii_of_string.
Qed.

(** ** The earlier revisions and the examples of the README *)

(** In [src/index.js] a date has no branch of its own: passed alone it is
    an object without enumerable keys, and the call is reported as an
    empty one. *)
Lemma IndexJs_date_alone_reported_empty :
  let h := [Obj (DateObj (Some "2024-02-02T00:00:00.000Z")) ∅] in
  IndexJs.getArgs ["logMethod"] [VRef 0] h
  = ([VUndefined; VRef 2],
     h ++ [error_object ["getArgs"; "logMethod"] "Empty log message"; err_wrapper 1]).
Proof. vm_compute. reflexivity. Qed.

(** In [src/index.js] an error passed as the second argument is spread as
    the context: only its own enumerable properties reach the record. *)
Lemma IndexJs_error_second_spread :
  let h := [Obj (ErrorObj "Error" "Oh Noes!" ["app.js"])
              {[ "wibble" := Data (VNumber (Finite 123%Z)) ]}] in
  IndexJs.logMethod VUndefined ["LOG"; "app.js"] [VString "Some message"; VRef 0] 50%Z h
  = Returns ([VRef 1; VString "Some message"],
             h ++ [Obj Plain {[ "wibble" := Data (VNumber (Finite 123%Z)) ]}]).
Proof. vm_compute. reflexivity. Qed.

(** [logger.info('Some message', { foo: 'bar' })]. *)
Example message_and_context :
  let h := [Obj Plain {[ "foo" := Data (VString "bar") ]}] in
  logMethod 10000 VUndefined ["LOG"; "app.js"] [VString "Some message"; VRef 0] 30%Z h
  = Returns ([VRef 1; VString "Some message"],
             h ++ [Obj Plain {[ "foo" := Data (VString "bar") ]}]).
Proof. vm_compute. reflexivity. Qed.

(** A context that refers to itself is copied into the merged object,
    and measured with the marker in place of the reference back. *)
Example circular_context :
  let h := [Obj Plain {[ "foo" := Data (VString "bar"); "context" := Data (VRef 0) ]}] in
  ('(record, h') ← logMethod 10000 VUndefined ["LOG"; "app.js"]
                     [VString "Some message"; VRef 0] 30%Z h;
   stringify h' record)
  = Returns ("[{" +:+ strEscape "context" +:+ ":{" +:+ strEscape "context" +:+ ":"
             +:+ strEscape "[Circular]" +:+ "," +:+ strEscape "foo" +:+ ":"
             +:+ strEscape "bar" +:+ "}," +:+ strEscape "foo" +:+ ":"
             +:+ strEscape "bar" +:+ "}," +:+ strEscape "Some message" +:+ "]").
Proof. vm_compute. reflexivity. Qed.

(** A function among the members is left out of the text. *)
Example unserialisable_member :
  let h := [Obj Plain {[ "foo" := Data (VString "bar"); "fn" := Data (VRef 1) ]};
            Obj (FunctionObj (Normal VUndefined)) ∅] in
  stringify h [VRef 0; VString "Some message"]
  = Returns ("[{" +:+ strEscape "foo" +:+ ":" +:+ strEscape "bar" +:+ "},"
             +:+ strEscape "Some message" +:+ "]").
Proof. vm_compute. reflexivity. Qed.

(** An object with a [toJSON] method is measured by what the method
    returns, not by its members. *)
Example toJSON_is_measured :
  let h := [Obj Plain {[ "secret" := Data (VString "hunter2"); "toJSON" := Data (VRef 1) ]};
            Obj (FunctionObj (Normal (VString "hidden"))) ∅] in
  ('(record, h') ← logMethod 10000 VUndefined ["LOG"; "app.js"]
                     [VString "Some message"; VRef 0] 30%Z h;
   stringify h' record)
  = Returns ("[" +:+ strEscape "hidden" +:+ "," +:+ strEscape "Some message" +:+ "]").
Proof. vm_compute. reflexivity. Qed.

(** Numbers are written as the language writes them: from [10^21] on
    in the exponent form. *)
Example large_number_measured :
  stringify [] [VNumber (Finite (10 ^ 21)); VNumber (Finite (2 ^ 53 + 1));
                VNumber (Decimal "0.5")]
  = Returns "[1e+21,9007199254740992,0.5]".
Proof. vm_compute. reflexivity. Qed.

Example maxSize_default :
  maxSize_of None = 10000%Z ∧ maxSize_of (Some 0%Z) = 10000%Z
  ∧ maxSize_of (Some 500%Z) = 500%Z.
Proof. repeat split. Qed.

(** The two oversize examples of the README:
    [logger.info(new Array(10000).fill('x').join(''))] and
    [logger.info('Some message', { x: new Array(10000).fill('x').join('') })]. *)
Example readme_oversize_message :
  let xs := String.string_of_list_ascii (replicate (100 * 100) "x"%char) in
  (λ r, okind (obj r.2 (length r.2 - 2)))
    <$> logMethod 10000 VUndefined ["LOG"; "app.js"] [VString xs] 30%Z []
  = Returns (ErrorObj "Error"
               "Log record size of 10,007 bytes exceeds maximum of 10,000 bytes"
               ["fail"; "logMethod"; "LOG"; "app.js"]).
Proof. vm_compute. reflexivity. Qed.

Example readme_oversize_context :
  let xs := String.string_of_list_ascii (replicate (100 * 100) "x"%char) in
  (λ r, okind (obj r.2 (length r.2 - 2)))
    <$> logMethod 10000 VUndefined ["LOG"; "app.js"] [VString "Some message"; VRef 0] 30%Z
          [Obj Plain {[ "x" := Data (VString xs) ]}]
  = Returns (ErrorObj "Error"
               "Log record size of 10,025 bytes exceeds maximum of 10,000 bytes"
               ["fail"; "logMethod"; "LOG"; "app.js"]).
Proof. vm_compute. reflexivity. Qed.

(** The message and the stack of an error are not enumerable, so they do
    not count in the measure: an error with a message of ten thousand
    characters, logged alone, measures seventeen bytes and is handed on
    under the default ceiling. *)
Example long_error_message_not_measured :
  let xs := String.string_of_list_ascii (replicate (100 * 100) "x"%char) in
  let h := [Obj (ErrorObj "Error" xs ["app.js"]) ∅] in
  fst <$> logMethod 10000 VUndefined ["LOG"; "app.js"] [VRef 0] 50%Z h
  = Returns [VRef 2; VUndefined]
  ∧ ('(record, h') ← outputArgs VUndefined ["LOG"; "app.js"] [VRef 0] h;
     Buffer_byteLength <$> stringify h' record)
    = Returns 17%Z.
Proof. vm_compute. split; reflexivity. Qed.

(** * Further properties of the code *)

(** ** What counts as empty ([isNotEmpty]) *)

Lemma blank_app p q : blank p → blank q → blank (p ++ q).
Proof.
  induction 1; intros Hq; simpl; [done|..];
    [apply blank_1|apply blank_2|apply blank_3]; auto.
Qed.

Lemma strip_false_split n : ∀ l, length l ≤ n →
  ∃ p, blank p ∧ l = p ++ strip false l.
Proof.
  induction n as [|n IH]; intros l Hl.
  { destruct l; [|simpl in Hl; lia]. exists []. split; [constructor|done]. }
  destruct l as [|a r1]; [exists []; split; [constructor|done]|].
  simpl in Hl. simpl strip. destruct (ws1 a) eqn:H1.
  { destruct (IH r1) as (p & Hp & E); [lia|].
    exists (a :: p). split; [by apply blank_1|]. simpl. by f_equal. }
  destruct r1 as [|b r2]; [exists []; split; [constructor|done]|].
  simpl in Hl. destruct (ws2 a b) eqn:H2.
  { destruct (IH r2) as (p & Hp & E); [lia|].
    exists (a :: b :: p). split; [by apply blank_2|]. simpl. by do 2 f_equal. }
  destruct r2 as [|c r3]; [exists []; split; [constructor|done]|].
  simpl in Hl. destruct (ws3 a b c) eqn:H3.
  { destruct (IH r3) as (p & Hp & E); [lia|].
    exists (a :: b :: c :: p). split; [by apply blank_3|]. simpl. by do 3 f_equal. }
  exists []. split; [constructor|done].
Qed.

Lemma strip_true_nil n : ∀ m, length m ≤ n → strip true m = [] → blank (rev m).
Proof.
  induction n as [|n IH]; intros m Hm.
  { destruct m; [constructor|simpl in Hm; lia]. }
  destruct m as [|a r1]; [constructor|].
  simpl in Hm. simpl strip. destruct (ws1 a) eqn:H1.
  { intros E. simpl. apply blank_app; [apply IH; [lia|done]|].
    apply blank_1; [done|constructor]. }
  destruct r1 as [|b r2]; [done|].
  simpl in Hm. destruct (ws2 b a) eqn:H2.
  { intros E. simpl. rewrite <- app_assoc. apply blank_app; [apply IH; [lia|done]|].
    apply blank_2; [done|constructor]. }
  destruct r2 as [|c r3]; [done|].
  simpl in Hm. destruct (ws3 c b a) eqn:H3; [|done].
  intros E. simpl. rewrite <- !app_assoc. apply blank_app; [apply IH; [lia|done]|].
  apply blank_3; [done|constructor].
Qed.

Lemma trim_empty_blank s :
  String.length (trim s) = 0 → blank (String.list_ascii_of_string s).
Proof.
  unfold trim. set (l := String.list_ascii_of_string s).
  destruct (strip_false_split _ l (le_n _)) as (p & Hp & E).
  intros Hlen.
  assert (Hnil : strip true (rev (strip false l)) = []).
  { destruct (strip true (rev (strip false l))) as [|x t] eqn:Ht; [done|].
    simpl in Hlen. rewrite <- (String.list_ascii_of_string_of_list_ascii (rev t ++ [x])) in Hlen.
    destruct (String.string_of_list_ascii (rev t ++ [x])) eqn:Hs; [|done].
    apply (f_equal String.list_ascii_of_string) in Hs.
    rewrite String.list_ascii_of_string_of_list_ascii in Hs. simpl in Hs.
    by destruct (rev t). }
  apply (strip_true_nil _ _ (le_n _)) in Hnil. rewrite rev_involutive in Hnil.
  rewrite E. by apply blank_app.
Qed.

(** X1: [isNotEmpty] rejects exactly [undefined], [null], the strings
    made of white space only (the empty one among them) and the objects,
    functions apart, without enumerable keys. *)
Theorem isNotEmpty_false_iff h v :
  isNotEmpty h v = false ↔ message_empty v ∨ context_empty h v.
Proof.
  split.
  - unfold isNotEmpty, message_empty, context_empty.
    destruct v as [| | | |s| | |l]; try done; try (by left; left); try (by right; right; left).
    + intros H. left. right. exists s. split; [done|].
      apply trim_empty_blank. apply negb_false_iff, Nat.eqb_eq in H. done.
    + destruct (String.eqb_spec (typeof h (VRef l)) "object") as [Hty|]; [|done].
      intros H. right. right. right. exists l. repeat split; try done.
      apply Object_keys_empty. apply negb_false_iff, Nat.eqb_eq in H.
      by destruct (Object_keys h l).
  - intros [H|H]; [by apply isNotEmpty_message_empty|by apply isNotEmpty_context_empty].
Qed.

(** ** Arguments passed through ([getArgs]) *)

Lemma getArgs_scalar frames h a0 :
  typeof_in h a0 ["boolean"; "number"; "string"] = true →
  isNotEmpty h a0 = true →
  getArgs frames [a0] h = ([a0], h).
Proof.
  intros Hty Hne. unfold getArgs, resolved_args, nth_arg. simpl.
  rewrite Hty. simpl. by rewrite Hne.
Qed.

Lemma getArgs_pair frames h a0 a1 rest :
  instanceof_Date h a1 = false →
  instanceof_Error h a1 = false →
  existsb (isNotEmpty h) [a0; a1] = true →
  getArgs frames (a0 :: a1 :: rest) h = ([a0; a1], h).
Proof.
  intros Hd He Hne. unfold getArgs, resolved_args, nth_arg. simpl.
  rewrite Hd, He. simpl. simpl in Hne. by rewrite Hne.
Qed.

Lemma isNotEmpty_solid_string h s :
  ¬ blank (String.list_ascii_of_string s) → isNotEmpty h (VString s) = true.
Proof.
  intros Hs. unfold isNotEmpty.
  destruct (String.length (trim s)) eqn:E; [|done].
  by apply trim_empty_blank in E.
Qed.

(** X2: a boolean, a number ([0] and [NaN] among them) or a string that
    is not white space only, passed alone, is returned as the only
    element; nothing is allocated. *)
Theorem getArgs_scalar_unchanged frames h b n s :
  ¬ blank (String.list_ascii_of_string s) →
  getArgs frames [VBoolean b] h = ([VBoolean b], h)
  ∧ getArgs frames [VNumber n] h = ([VNumber n], h)
  ∧ getArgs frames [VString s] h = ([VString s], h).
Proof.
  intros Hs. repeat split; apply getArgs_scalar; try done.
  by apply isNotEmpty_solid_string.
Qed.

Lemma getArgs_scalar_unchanged_witness :
  ¬ blank (String.list_ascii_of_string "Some message")
  ∧ getArgs ["logMethod"] [VString "Some message"] [] = ([VString "Some message"], [])
  ∧ getArgs ["logMethod"] [VNumber (Finite 0%Z)] [] = ([VNumber (Finite 0%Z)], [])
  ∧ getArgs ["logMethod"] [VBoolean false] [] = ([VBoolean false], []).
Proof.
  assert (Hs : ¬ blank (String.list_ascii_of_string "Some message")).
  { intros H. apply trim_blank in H. vm_compute in H. discriminate. }
  split; [exact Hs|].
  destruct (getArgs_scalar_unchanged ["logMethod"] [] false (Finite 0%Z) "Some message" Hs)
    as (Hb & Hn & Hstr).
  split; [exact Hstr|]. split; [exact Hn|exact Hb].
Defined.

Lemma fresh_plain_not_special h o :
  okind o = Plain →
  instanceof_Date (h ++ [o]) (VRef (length h)) = false
  ∧ instanceof_Error (h ++ [o]) (VRef (length h)) = false.
Proof.
  intros Hk. unfold instanceof_Date, instanceof_Error. by rewrite obj_alloc_new, Hk.
Qed.

Lemma normal_wrapper h a0 k v :
  normal (h ++ [Obj Plain {[ k := Data v ]}]) [a0; VRef (length h)].
Proof.
  right. exists a0, (VRef (length h)).
  destruct (fresh_plain_not_special h (Obj Plain {[ k := Data v ]}) eq_refl) as [Hd He].
  repeat split; try done. simpl. by rewrite isNotEmpty_wrapper, orb_true_r.
Qed.

Lemma normal_fail h frames message :
  normal (h ++ [error_object frames message; err_wrapper (length h)])
    [VUndefined; VRef (S (length h))].
Proof.
  right. exists VUndefined, (VRef (S (length h))).
  unfold instanceof_Date, instanceof_Error, isNotEmpty, typeof.
  simpl. rewrite obj_pair_second. simpl.
  repeat split; try done.
  erewrite Object_keys_singleton; [done|]. by rewrite obj_pair_second.
Qed.

Lemma typeof_in_scalar_String h s :
  typeof_in h (VString s) ["boolean"; "number"; "string"] = true.
Proof. reflexivity. Qed.

Lemma resolved_args_normal inputArgs h args h1 :
  resolved_args inputArgs h = (args, h1) →
  existsb (isNotEmpty h1) args = true →
  normal h1 args.
Proof.
  unfold resolved_args, alloc, nth_arg. intros E Hne.
  destruct inputArgs as [|x [|y rest]]; simpl in E;
    repeat case_match; simplify_eq; try apply normal_wrapper; try done;
    repeat match goal with
    | H : _ && _ = true |- _ => apply andb_prop in H as [? ?]
    | H : true && _ = false |- _ => simpl in H
    end.
  - left. exists x. simpl in Hne. rewrite orb_false_r in Hne. done.
  - left. eexists. simpl in Hne. rewrite orb_false_r in Hne.
    split; [done|]. split; [apply typeof_in_scalar_String|done].
  - right. by exists VUndefined, x.
  - right. by exists x, y.
Qed.

Lemma getArgs_result_normal frames inputArgs h args h1 :
  getArgs frames inputArgs h = (args, h1) → normal h1 args.
Proof.
  unfold getArgs.
  destruct (resolved_args inputArgs h) as [args0 h0] eqn:E.
  destruct (existsb (isNotEmpty h0) args0) eqn:Hne.
  - intros [= <- <-]. by apply (resolved_args_normal inputArgs h).
  - rewrite fail_eq. intros [= <- <-]. apply normal_fail.
Qed.

(** X3: what [getArgs] returns is in normal form in the heap it returns:
    one scalar that is not empty, or two values that are not both empty,
    the second neither a date nor an error. *)
Theorem getArgs_normal_form frames inputArgs h :
  normal (getArgs frames inputArgs h).2 (getArgs frames inputArgs h).1.
Proof.
  destruct (getArgs frames inputArgs h) as [args h1] eqn:E.
  by apply (getArgs_result_normal frames inputArgs h).
Qed.

Lemma getArgs_of_normal frames h args : normal h args → getArgs frames args h = (args, h).
Proof.
  intros [(a0 & -> & Hty & Hne)|(a0 & a1 & -> & Hd & He & Hne)].
  - by apply getArgs_scalar.
  - by apply getArgs_pair.
Qed.

(** X4: [getArgs] applied to what it returned, in the heap it returned,
    gives the same list and allocates nothing: normalising is
    idempotent. *)
Theorem getArgs_idempotent frames frames' inputArgs h :
  getArgs frames' (getArgs frames inputArgs h).1 (getArgs frames inputArgs h).2
  = getArgs frames inputArgs h.
Proof.
  destruct (getArgs frames inputArgs h) as [args h1] eqn:E. simpl.
  apply getArgs_of_normal. by apply (getArgs_result_normal frames inputArgs h).
Qed.

Lemma bare_primitive_props h v :
  bare_primitive v →
  isNotEmpty h v = true ∧ instanceof_Date h v = false
  ∧ instanceof_Error h v = false ∧ spread h v = Returns ∅.
Proof.
  destruct v; try done; intros _; repeat split;
    unfold spread, enumerable_props, read_all;
    by rewrite map_to_list_empty, ?fmap_empty.
Qed.

(** X5: a boolean, number, bigint or symbol in the place of the context
    counts as not empty, so the call is not reported as empty whatever
    the message is, and it contributes no key: the merged context is the
    ambient one alone. *)
Theorem bare_context_ignored store frames a0 a1 rest h A :
  bare_primitive a1 →
  spread_store h store = Returns A →
  outputArgs store frames (a0 :: a1 :: rest) h
  = Returns ([VRef (length h); a0], h ++ [Obj Plain (Data <$> A)]).
Proof.
  intros Hb HA. destruct (bare_primitive_props h a1 Hb) as (Hne & Hd & He & Hs).
  rewrite (outputArgs_eq store frames (a0 :: a1 :: rest) h [a0; a1] h A ∅); try done.
  - by rewrite (left_id_L ∅ (∪)).
  - apply getArgs_pair; try done. simpl. by rewrite Hne, orb_true_r.
Qed.

Lemma bare_context_ignored_witness :
  bare_primitive (VNumber (Finite 5%Z))
  ∧ spread_store [] VUndefined = Returns ∅
  ∧ outputArgs VUndefined ["LOG"; "app.js"] [VUndefined; VNumber (Finite 5%Z)] []
    = Returns ([VRef 0; VUndefined], [] ++ [Obj Plain (Data <$> ∅)]).
Proof.
  split; [exact I|]. split; [reflexivity|].
  exact (bare_context_ignored VUndefined ["LOG"; "app.js"] VUndefined (VNumber (Finite 5%Z))
           [] [] ∅ I eq_refl).
Defined.

(** ** The record the engine formats ([formatters.log]) *)

Lemma formatters_log_eq object h v h1 :
  formatters_log object h = Returns (v, h1) →
  ∃ p, spread h object = Returns p
       ∧ v = VRef (length h)
       ∧ h1 = h ++ [Obj Plain (Data <$> (delete "error" p
                                         ∪ {[ "err" := default VUndefined (p !! "error") ]}))].
Proof.
  unfold formatters_log, alloc. intros H.
  destruct object; try done; simpl in H;
    match type of H with
    | context [spread ?h0 ?o] => destruct (spread h0 o) as [p| |] eqn:Hs; try done
    end; simpl in H; injection H as <- <-; by exists p.
Qed.

(** X7: the object [formatters.log] returns has no key [error]; its key
    [err] holds the [err] of the object given if it has one, else its
    [error], else [undefined]; every other key is copied with its value.
    The object given is left as it was: the result is a new object. *)
Theorem formatters_log_keys object h v h1 :
  formatters_log object h = Returns (v, h1) →
  ∃ p, spread h object = Returns p
       ∧ v = VRef (length h) ∧ h1 = h ++ [obj h1 (length h)]
       ∧ okind (obj h1 (length h)) = Plain
       ∧ props (obj h1 (length h)) !! "error" = None
       ∧ props (obj h1 (length h)) !! "err"
         = Some (Data (default (default VUndefined (p !! "error")) (p !! "err")))
       ∧ ∀ k, k ≠ "err" → k ≠ "error" →
              props (obj h1 (length h)) !! k = Data <$> p !! k.
Proof.
  intros H. destruct (formatters_log_eq _ _ _ _ H) as (p & Hs & -> & ->).
  exists p. rewrite obj_alloc_new. simpl. repeat split; try done.
  - rewrite lookup_fmap, lookup_union, lookup_delete_eq, lookup_singleton_ne; done.
  - rewrite lookup_fmap, lookup_union, lookup_delete_ne, lookup_singleton_eq by done.
    by destruct (p !! "err").
  - intros k Herr Herror.
    rewrite lookup_fmap, lookup_union, lookup_delete_ne, lookup_singleton_ne by done.
    by destruct (p !! k).
Qed.

Lemma formatters_log_keys_witness :
  let h := [Obj Plain {[ "error" := Data (VString "boom"); "foo" := Data (VString "bar") ]}] in
  ∃ v h1, formatters_log (VRef 0) h = Returns (v, h1)
          ∧ props (obj h1 (length h)) !! "error" = None
          ∧ props (obj h1 (length h)) !! "err" = Some (Data (VString "boom"))
          ∧ props (obj h1 (length h)) !! "foo" = Some (Data (VString "bar")).
Proof.
  intros h.
  destruct (formatters_log (VRef 0) h) as [[v h1]| |] eqn:E; try (vm_compute in E; discriminate E).
  exists v, h1. split; [done|].
  destruct (formatters_log_keys (VRef 0) h v h1 E) as (p & Hs & _ & _ & _ & Herror & Herr & Hk).
  assert (Hp : p = {[ "error" := VString "boom"; "foo" := VString "bar" ]}).
  { vm_compute in Hs. injection Hs as <-. vm_compute. reflexivity. }
  split; [exact Herror|]. split.
  - rewrite Herr, Hp. reflexivity.
  - rewrite (Hk "foo") by done. rewrite Hp. reflexivity.
Defined.

(** X8: formatting twice is formatting once: applied to the object it
    returned, [formatters.log] returns an object with the same
    properties. *)
Theorem formatters_log_idempotent object h v h1 :
  formatters_log object h = Returns (v, h1) →
  ∃ v2 h2, formatters_log v h1 = Returns (VRef v2, h2)
           ∧ okind (obj h2 v2) = Plain
           ∧ props (obj h2 v2) = props (obj h1 (length h)).
Proof.
  intros H. destruct (formatters_log_eq _ _ _ _ H) as (p & Hs & -> & ->).
  set (F := delete "error" p ∪ {[ "err" := default VUndefined (p !! "error") ]}).
  assert (HF : spread (h ++ [Obj Plain (Data <$> F)]) (VRef (length h)) = Returns F).
  { apply spread_data; by rewrite obj_alloc_new. }
  unfold formatters_log, alloc. rewrite HF. simpl.
  eexists _, _. split; [done|]. rewrite obj_alloc_new. simpl. split; [done|].
  rewrite obj_alloc_new. simpl. f_equal.
  assert (Herror : F !! "error" = None).
  { unfold F. by rewrite lookup_union, lookup_delete_eq, lookup_singleton_ne. }
  rewrite Herror, delete_id by done. simpl.
  apply map_eq. intros k. rewrite lookup_union.
  destruct (decide (k = "err")) as [->|Hk].
  - rewrite lookup_singleton_eq. unfold F.
    rewrite lookup_union, lookup_delete_ne, lookup_singleton_eq by done.
    by destruct (p !! "err").
  - rewrite lookup_singleton_ne by done. by destruct (F !! k).
Qed.

Lemma formatters_log_idempotent_witness :
  let h := [Obj Plain {[ "error" := Data (VString "boom"); "foo" := Data (VString "bar") ]}] in
  ∃ v h1 v2 h2, formatters_log (VRef 0) h = Returns (v, h1)
                ∧ formatters_log v h1 = Returns (VRef v2, h2)
                ∧ props (obj h2 v2) = props (obj h1 (length h)).
Proof.
  intros h.
  destruct (formatters_log (VRef 0) h) as [[v h1]| |] eqn:E; try (vm_compute in E; discriminate E).
  destruct (formatters_log_idempotent (VRef 0) h v h1 E) as (v2 & h2 & H2 & _ & Hp).
  exists v, h1, v2, h2. split; [done|]. split; [exact H2|exact Hp].
Defined.

(** ** The measure of a message logged alone ([logMethod]) *)

Lemma string_length_app (a b : string) :
  String.length (a +:+ b) = String.length a + String.length b.
Proof. induction a as [|c a IH]; simpl; [done|]. by rewrite IH. Qed.

Lemma spread_store_falsy h store : truthy store = false → spread_store h store = Returns ∅.
Proof. unfold spread_store. by intros ->. Qed.

Lemma spread_undefined h : spread h VUndefined = Returns ∅.
Proof. unfold spread, enumerable_props, read_all. by rewrite map_to_list_empty, fmap_empty. Qed.

Lemma outputArgs_message_only store frames h s :
  truthy store = false →
  ¬ blank (String.list_ascii_of_string s) →
  outputArgs store frames [VString s] h
  = Returns ([VRef (length h); VString s], h ++ [Obj Plain ∅]).
Proof.
  intros Hst Hs.
  rewrite (outputArgs_eq store frames [VString s] h [VString s] h ∅ ∅).
  - by rewrite (left_id_L ∅ (∪)), fmap_empty.
  - apply getArgs_scalar; [done|by apply isNotEmpty_solid_string].
  - by apply spread_store_falsy.
  - apply spread_undefined.
Qed.

Lemma stringify_message_only h s :
  stringify (h ++ [Obj Plain ∅]) [VRef (length h); VString s]
  = Returns ("[{}," +:+ strEscape s +:+ "]").
Proof.
  unfold stringify, items. simpl mapM.
  rewrite stringifySimple_bare.
  - reflexivity.
  - left. by rewrite obj_alloc_new.
  - by rewrite obj_alloc_new.
  - apply not_elem_of_nil.
Qed.

(** X9: a message logged alone, without an ambient store, measures the
    length of its escaped text plus seven bytes: it is handed on with a
    new empty context when that fits the ceiling, and replaced by the
    report naming that size when it does not. *)
Theorem message_only_measure maxSize store frames level h s :
  truthy store = false →
  ¬ blank (String.list_ascii_of_string s) →
  let size := (Z.of_nat (String.length (escape s)) + 7)%Z in
  logMethod maxSize store frames [VString s] level h
  = if (maxSize <? size)%Z
    then Returns ([VRef (S (S (length h)))],
                  h ++ [Obj Plain ∅;
                        error_object ("fail" :: "logMethod" :: frames)
                          (oversize_message size maxSize);
                        err_wrapper (S (length h))])
    else Returns ([VRef (length h); VString s], h ++ [Obj Plain ∅]).
Proof.
  intros Hst Hs size.
  rewrite logMethod_unfold, outputArgs_message_only by done. simpl.
  rewrite stringify_message_only. simpl.
  assert (Hsize : Buffer_byteLength ("[{}," +:+ strEscape s +:+ "]") = size).
  { unfold Buffer_byteLength, strEscape, size. simpl.
    rewrite !string_length_app. simpl. lia. }
  rewrite Hsize. destruct (maxSize <? size)%Z; [|done].
  rewrite length_app, <- app_assoc. simpl. by rewrite Nat.add_1_r.
Qed.

Lemma message_only_measure_witness :
  truthy VUndefined = false
  ∧ ¬ blank (String.list_ascii_of_string "Some message")
  ∧ logMethod 18 VUndefined ["LOG"; "app.js"] [VString "Some message"] 30%Z []
    = Returns ([VRef 2],
               [Obj Plain ∅;
                error_object ["fail"; "logMethod"; "LOG"; "app.js"]
                  "Log record size of 19 bytes exceeds maximum of 18 bytes";
                err_wrapper 1])
  ∧ logMethod 19 VUndefined ["LOG"; "app.js"] [VString "Some message"] 30%Z []
    = Returns ([VRef 0; VString "Some message"], [Obj Plain ∅]).
Proof.
  assert (Hs : ¬ blank (String.list_ascii_of_string "Some message")).
  { intros H. apply trim_blank in H. vm_compute in H. discriminate. }
  split; [reflexivity|]. split; [exact Hs|]. split.
  - exact (message_only_measure 18 VUndefined ["LOG"; "app.js"] 30%Z [] "Some message"
             eq_refl Hs).
  - exact (message_only_measure 19 VUndefined ["LOG"; "app.js"] 30%Z [] "Some message"
             eq_refl Hs).
Defined.

(** X10: raising the ceiling never changes a record that was handed on:
    a call that returned its two-element record under one ceiling returns
    the same record, in the same heap, under every larger one. *)
Theorem logMethod_ceiling_monotone maxSize maxSize' store frames inputArgs level h record h' :
  logMethod maxSize store frames inputArgs level h = Returns (record, h') →
  length record = 2 →
  (maxSize ≤ maxSize')%Z →
  logMethod maxSize' store frames inputArgs level h = Returns (record, h').
Proof.
  rewrite !logMethod_unfold.
  destruct (outputArgs store frames inputArgs h) as [[out h1]| |]; simpl; try done.
  destruct (stringify h1 out) as [text| |]; simpl; try done.
  destruct (Z.ltb_spec maxSize (Buffer_byteLength text)) as [Hlt|Hle].
  - by intros [= <- <-].
  - intros [= <- <-] _ Hmax.
    destruct (Z.ltb_spec maxSize' (Buffer_byteLength text)); [lia|done].
Qed.

Lemma logMethod_ceiling_monotone_witness :
  logMethod 19 VUndefined ["LOG"; "app.js"] [VString "Some message"] 30%Z []
    = Returns ([VRef 0; VString "Some message"], [Obj Plain ∅])
  ∧ length [VRef 0; VString "Some message"] = 2
  ∧ (19 ≤ 10000)%Z
  ∧ logMethod 10000 VUndefined ["LOG"; "app.js"] [VString "Some message"] 30%Z []
    = Returns ([VRef 0; VString "Some message"], [Obj Plain ∅]).
Proof.
  assert (H : logMethod 19 VUndefined ["LOG"; "app.js"] [VString "Some message"] 30%Z []
              = Returns ([VRef 0; VString "Some message"], [Obj Plain ∅]))
    by (vm_compute; reflexivity).
  split; [exact H|]. split; [reflexivity|]. split; [lia|].
  exact (logMethod_ceiling_monotone 19 10000 VUndefined ["LOG"; "app.js"]
           [VString "Some message"] 30%Z [] _ _ H eq_refl ltac:(lia)).
Defined.

(** ** The targets of [init] *)

Lemma Get_unfold h v k :
  (v = VUndefined ∨ v = VNull)
  ∨ (Get h v k = match enumerable_props h v !! k with
                 | Some s => of_completion (read s)
                 | None => Returns VUndefined
                 end
     ∧ get_value h v k = from_option value_of VUndefined (enumerable_props h v !! k)).
Proof. destruct v; auto. Qed.

Lemma Get_inv h v k x : Get h v k = Returns x → x = get_value h v k.
Proof.
  destruct (Get_unfold h v k) as [[->| ->]|[-> ->]]; try (by intros [= <-]).
  destruct (enumerable_props h v !! k) as [s|]; simpl; [|by intros [= <-]].
  unfold value_of. destruct (read s); simpl; by intros [= <-].
Qed.

Lemma enumerable_props_no_throw h v k s :
  no_throw h → enumerable_props h v !! k = Some s → thrown s = None.
Proof.
  intros Hh. destruct v; simpl; try (by rewrite lookup_empty).
  - intros H. by apply index_props_data in H as [v ->].
  - by apply own_props_no_throw.
Qed.

Lemma Get_no_throw h v k : no_throw h → Get h v k = Returns (get_value h v k).
Proof.
  intros Hh. destruct (Get_unfold h v k) as [[->| ->]|[-> ->]]; try done.
  destruct (enumerable_props h v !! k) as [s|] eqn:E; simpl; [|done].
  apply (enumerable_props_no_throw h v k s Hh) in E.
  unfold thrown, value_of in *. by destruct (read s).
Qed.

Lemma truthy_or_else a b : truthy (or_else a b) = truthy a || truthy b.
Proof. unfold or_else. by destruct (truthy a) eqn:E; rewrite ?E. Qed.

Lemma init_sync_inv h options sync :
  init_sync h options = Returns sync → sync = sync_of h options.
Proof.
  unfold init_sync, sync_of.
  destruct (Get h options "sync") as [s| |] eqn:Es; simpl; try done.
  apply Get_inv in Es as ->. unfold or_else at 2.
  destruct (truthy (get_value h options "sync")) eqn:E1; [by intros [= <-]|].
  destruct (Get h options "test") as [t| |] eqn:Et; simpl; try done.
  apply Get_inv in Et as ->. intros [= <-].
  unfold or_else. by destruct (truthy (get_value h options "test")).
Qed.

Lemma truthy_sync_of h options :
  truthy (sync_of h options)
  = truthy (get_value h options "sync") || truthy (get_value h options "test").
Proof.
  unfold sync_of. rewrite truthy_or_else. done.
Qed.

Lemma configureMachineLogger_inv h options sync ts :
  configureMachineLogger h options sync = Returns ts →
  ts = if truthy (get_value h options "machine")
       then [Target "pino/file" (level_of h options "machine")
               (Some {[ "destination" := destination_of h options "machine";
                        "sync" := sync ]})]
       else [].
Proof.
  unfold configureMachineLogger, level_of, destination_of.
  destruct (Get h options "machine") as [m| |] eqn:Em; simpl; try done.
  apply Get_inv in Em as ->.
  destruct (truthy (get_value h options "machine")); [|by intros [= <-]].
  destruct (Get h _ "level") as [l| |] eqn:El; simpl; try done.
  destruct (Get h _ "destination") as [d| |] eqn:Ed; simpl; try done.
  apply Get_inv in El as ->. apply Get_inv in Ed as ->. by intros [= <-].
Qed.

Lemma configureHumanLogger_inv h options sync ts :
  configureHumanLogger h options sync = Returns ts →
  ts = if truthy (get_value h options "human")
       then [Target "pino-pretty" (level_of h options "human")
               (Some {[ "destination" := destination_of h options "human";
                        "ignore" := VString "time,severity";
                        "sync" := sync ]})]
       else [].
Proof.
  unfold configureHumanLogger, level_of, destination_of.
  destruct (Get h options "human") as [m| |] eqn:Em; simpl; try done.
  apply Get_inv in Em as ->.
  destruct (truthy (get_value h options "human")); [|by intros [= <-]].
  destruct (Get h _ "level") as [l| |] eqn:El; simpl; try done.
  destruct (Get h _ "destination") as [d| |] eqn:Ed; simpl; try done.
  apply Get_inv in El as ->. apply Get_inv in Ed as ->. by intros [= <-].
Qed.

Lemma configureTestLogger_inv cwd h options ts :
  configureTestLogger cwd h options = Returns ts →
  ts = if truthy (get_value h options "test")
       then [Target (transport_path cwd) (level_of h options "test") None]
       else [].
Proof.
  unfold configureTestLogger, level_of.
  destruct (Get h options "test") as [m| |] eqn:Em; simpl; try done.
  apply Get_inv in Em as ->.
  destruct (truthy (get_value h options "test")); [|by intros [= <-]].
  destruct (Get h _ "level") as [l| |] eqn:El; simpl; try done.
  apply Get_inv in El as ->. by intros [= <-].
Qed.

(** When [init] computes its targets, they are these. *)
Lemma init_targets_inv cwd h options ts :
  init_targets cwd h options = Returns ts →
  ts = (if truthy (get_value h options "machine")
        then [Target "pino/file" (level_of h options "machine")
                (Some {[ "destination" := destination_of h options "machine";
                         "sync" := sync_of h options ]})]
        else [])
       ++ (if truthy (get_value h options "human")
           then [Target "pino-pretty" (level_of h options "human")
                   (Some {[ "destination" := destination_of h options "human";
                            "ignore" := VString "time,severity";
                            "sync" := sync_of h options ]})]
           else [])
       ++ (if truthy (get_value h options "test")
           then [Target (transport_path cwd) (level_of h options "test") None]
           else []).
Proof.
  unfold init_targets. intros H.
  destruct (init_sync h options) as [sync| |] eqn:Hs; simpl in H; try done.
  destruct (configureMachineLogger h options sync) as [machine| |] eqn:Hm;
    simpl in H; try done.
  destruct (configureHumanLogger h options sync) as [human| |] eqn:Hu;
    simpl in H; try done.
  destruct (configureTestLogger cwd h options) as [test| |] eqn:Ht; simpl in H; try done.
  injection H as <-.
  apply init_sync_inv in Hs as ->.
  apply configureMachineLogger_inv in Hm as ->.
  apply configureHumanLogger_inv in Hu as ->.
  by apply configureTestLogger_inv in Ht as ->.
Qed.

Lemma init_targets_no_throw cwd h options :
  no_throw h → ∃ ts, init_targets cwd h options = Returns ts.
Proof.
  intros Hh. unfold init_targets, init_sync, configureMachineLogger,
    configureHumanLogger, configureTestLogger.
  rewrite !Get_no_throw by done. simpl.
  destruct (truthy (get_value h options "sync")); simpl;
    rewrite ?Get_no_throw by done; simpl;
    destruct (truthy (get_value h options "machine")); simpl;
    rewrite ?Get_no_throw by done; simpl;
    destruct (truthy (get_value h options "human")); simpl;
    rewrite ?Get_no_throw by done; simpl;
    destruct (truthy (get_value h options "test")); simpl;
    rewrite ?Get_no_throw by done; simpl; by eexists.
Qed.

(** X11: when no getter throws, [init] computes its targets, and they
    are the machine target [pino/file], the human target [pino-pretty]
    and the test target, the transport under [lib] of the working
    directory, in that order, each present exactly when its option is
    truthy; the level of each is the [level] of its option, or [info]
    when that is falsy or missing. *)
Theorem init_targets_layout cwd h options :
  no_throw h →
  ∃ ts, init_targets cwd h options = Returns ts
        ∧ (λ t, (target_name t, target_level t)) <$> ts
          = (if truthy (get_value h options "machine")
             then [("pino/file", or_else (get_value h (get_value h options "machine") "level")
                                   (VString "info"))]
             else [])
            ++ (if truthy (get_value h options "human")
                then [("pino-pretty",
                       or_else (get_value h (get_value h options "human") "level")
                         (VString "info"))]
                else [])
            ++ (if truthy (get_value h options "test")
                then [(transport_path cwd,
                       or_else (get_value h (get_value h options "test") "level")
                         (VString "info"))]
                else []).
Proof.
  intros Hh. destruct (init_targets_no_throw cwd h options Hh) as [ts Hts].
  exists ts. split; [done|].
  apply init_targets_inv in Hts as ->. rewrite !fmap_app.
  by destruct (truthy (get_value h options "machine")),
    (truthy (get_value h options "human")), (truthy (get_value h options "test")).
Qed.

Lemma no_throw_data_heap (m : gmap string value) : no_throw [Obj Plain (Data <$> m)].
Proof. apply (no_throw_alloc_data [] Plain m). intros l k s. by destruct l. Qed.

Lemma init_targets_layout_witness :
  let h := [Obj Plain (Data <$> {[ "human" := VBoolean true; "test" := VRef 1 ]});
            Obj Plain (Data <$> {[ "level" := VString "debug" ]})] in
  no_throw h
  ∧ ∃ ts, init_targets "/" h (VRef 0) = Returns ts
          ∧ (λ t, (target_name t, target_level t)) <$> ts
            = [("pino-pretty", VString "info");
               ("/lib/post-message-transport", VString "debug")].
Proof.
  intros h.
  assert (Hh : no_throw h).
  { change h with ([Obj Plain (Data <$> {[ "human" := VBoolean true; "test" := VRef 1 ]})]
                   ++ [Obj Plain (Data <$> {[ "level" := VString "debug" ]})]).
    apply no_throw_alloc_data, no_throw_data_heap. }
  split; [exact Hh|].
  destruct (init_targets_layout "/" h (VRef 0) Hh) as (ts & Hts & Hlayout).
  exists ts. split; [exact Hts|]. rewrite Hlayout. vm_compute. reflexivity.
Defined.

(** X12: every target that has options is the machine or the human
    target, and runs with the [sync] that [init] computed, the option
    [sync] when it is truthy and otherwise whether the option [test] is:
    it is truthy exactly when one of the two is, so a test logger makes
    the machine and the human targets synchronous.  Its destination is
    the [destination] of its option, or [1] when that is falsy or
    missing. *)
Theorem init_targets_sync cwd h options ts t o :
  init_targets cwd h options = Returns ts →
  t ∈ ts → target_options t = Some o →
  ∃ k, (target_name t = "pino/file" ∧ k = "machine"
        ∨ target_name t = "pino-pretty" ∧ k = "human")
       ∧ o !! "sync"
         = Some (or_else (get_value h options "sync")
                   (VBoolean (truthy (get_value h options "test"))))
       ∧ truthy (or_else (get_value h options "sync")
                   (VBoolean (truthy (get_value h options "test"))))
         = truthy (get_value h options "sync") || truthy (get_value h options "test")
       ∧ o !! "destination"
         = Some (or_else (get_value h (get_value h options k) "destination")
                   (VNumber (Finite 1%Z))).
Proof.
  intros Hts Ht Ho. apply init_targets_inv in Hts as ->.
  rewrite !elem_of_app in Ht.
  destruct Ht as [Ht|[Ht|Ht]];
    match type of Ht with
    | _ ∈ (if ?b then _ else _) => destruct b; [|by apply elem_of_nil in Ht]
    end;
    apply list_elem_of_singleton in Ht as ->; simpl in Ho; simplify_eq.
  - exists "machine". split; [by left|]. split; [|split].
    + by rewrite lookup_insert_ne, lookup_singleton_eq.
    + apply truthy_sync_of.
    + by rewrite lookup_insert_eq.
  - exists "human". split; [by right|]. split; [|split].
    + by rewrite !lookup_insert_ne, lookup_singleton_eq.
    + apply truthy_sync_of.
    + by rewrite lookup_insert_eq.
Qed.

Lemma init_targets_sync_witness :
  let h := [Obj Plain (Data <$> {[ "human" := VBoolean true; "test" := VBoolean true ]})] in
  let o : gmap string value :=
    {[ "destination" := VNumber (Finite 1%Z); "ignore" := VString "time,severity";
       "sync" := VBoolean true ]} in
  let t := Target "pino-pretty" (VString "info") (Some o) in
  let ts := [t; Target (transport_path "/srv/app") (VString "info") None] in
  init_targets "/srv/app" h (VRef 0) = Returns ts
  ∧ t ∈ ts ∧ target_options t = Some o
  ∧ o !! "sync" = Some (VBoolean true)
  ∧ o !! "destination" = Some (VNumber (Finite 1%Z)).
Proof.
  intros h o t ts.
  assert (Hts : init_targets "/srv/app" h (VRef 0) = Returns ts) by (vm_compute; reflexivity).
  assert (Ht : t ∈ ts) by (apply list_elem_of_here).
  split; [exact Hts|]. split; [exact Ht|]. split; [reflexivity|].
  destruct (init_targets_sync "/srv/app" h (VRef 0) ts t o Hts Ht eq_refl)
    as (k & [[_ ->]|[_ ->]] & Hsync & _ & Hdest).
  - split; [etrans; [exact Hsync|]|etrans; [exact Hdest|]]; vm_compute; reflexivity.
  - split; [etrans; [exact Hsync|]|etrans; [exact Hdest|]]; vm_compute; reflexivity.
Defined.

(** X13: called without options, [init] logs to one target, the machine
    one, at level [info], to the descriptor [1], not synchronously;
    called with [null], for which the default does not stand in, it has
    no target at all. *)
Theorem init_default_targets cwd h :
  init_targets cwd (default_options VUndefined h).2 (default_options VUndefined h).1
  = Returns [Target "pino/file" (VString "info")
               (Some {[ "destination" := VNumber (Finite 1); "sync" := VBoolean false ]})]
  ∧ default_options VNull h = (VNull, h)
  ∧ init_targets cwd h VNull = Returns [].
Proof.
  split; [|done].
  unfold default_options, alloc. simpl.
  assert (HG : ∀ k, Get (h ++ [Obj Plain {[ "machine" := Data (VBoolean true) ]}])
                      (VRef (length h)) k
                    = Returns (if bool_decide (k = "machine") then VBoolean true
                               else VUndefined)).
  { intros k. unfold Get, enumerable_props, own_props. rewrite obj_alloc_new. simpl.
    case_bool_decide as Hk.
    - subst k. by rewrite lookup_singleton_eq.
    - by rewrite lookup_singleton_ne. }
  unfold init_targets, init_sync, configureMachineLogger, configureHumanLogger,
    configureTestLogger.
  rewrite !HG. simpl. reflexivity.
Qed.

(** ** The redaction paths of the earlier revisions *)

Ltac cover_wild :=
  first
    [ cover "password" | cover "email" | cover "*.password" | cover "*.email"
    | cover "*[*].password" | cover "*[*].email"
    | cover "*.headers.*" | cover "*.*.headers.*" ].

Ltac solve_covered_wild :=
  first
    [ left; eexists [], _; split; [reflexivity|]; split; [set_solver|simpl; lia]
    | left; eexists [_], _; split; [reflexivity|]; split; [set_solver|simpl; lia]
    | left; eexists [_; _], _; split; [reflexivity|]; split; [set_solver|simpl; lia]
    | right; eexists [_], _; split; [reflexivity|simpl; lia]
    | right; eexists [_; _], _; split; [reflexivity|simpl; lia] ].

Ltac matches_wild Hp Hm path :=
  simpl in Hp;
  repeat (destruct Hp as [<-|Hp];
    [ segments_in Hm;
      destruct path as [|? [|? [|? [|? [|? ?]]]]];
      cbn [Redact.matches] in Hm; try discriminate Hm;
      unfold Redact.segment_matches in Hm;
      repeat (rewrite ?andb_true_iff, ?orb_true_iff, ?String.eqb_eq in Hm);
      destruct_and?; destruct_or?; simplify_eq; solve_covered_wild
    | ]);
  done.

Lemma IndexJs_covered_redacts path :
  IndexJs_covered path → Redact.redacts (IndexJs.redact_paths []) path = true.
Proof.
  intros [(prefix & key & -> & Hkey & Hlen)|(wrapper & name & -> & Hlen)].
  - apply list_elem_of_In in Hkey. simpl in Hkey.
    destruct prefix as [|a [|b [|c rest]]]; simpl in Hlen; try lia;
      destruct Hkey as [<-|[<-|[]]]; cover_wild.
  - destruct wrapper as [|a [|b [|c rest]]]; simpl in Hlen; try lia; cover_wild.
Qed.

Lemma IndexJs_matches_covered p path :
  In p (IndexJs.redact_paths []) → Redact.matches (Redact.segments p) path = true →
  IndexJs_covered path.
Proof. intros Hp Hm. unfold IndexJs_covered. matches_wild Hp Hm path. Qed.

Lemma Factory_covered_redacts path :
  Factory_covered path → Redact.redacts (Factory.redact_paths []) path = true.
Proof.
  intros [(prefix & key & -> & Hkey & Hlen)|(wrapper & name & -> & Hlen)].
  - apply list_elem_of_In in Hkey. simpl in Hkey.
    destruct prefix as [|a [|b rest]]; simpl in Hlen; try lia;
      destruct Hkey as [<-|[<-|[]]]; cover_wild.
  - destruct wrapper as [|a [|b [|c rest]]]; simpl in Hlen; try lia; cover_wild.
Qed.

Lemma Factory_matches_covered p path :
  In p (Factory.redact_paths []) → Redact.matches (Redact.segments p) path = true →
  Factory_covered path.
Proof. intros Hp Hm. unfold Factory_covered. matches_wild Hp Hm path. Qed.

(** X14: the paths of [src/index.js] point exactly at a [password] or
    [email] at most two levels down, at what is directly inside a
    [headers] block one or two levels down, whatever the names above
    it, and at what the caller's own paths point at. *)
Theorem IndexJs_redact_paths_cover extra path :
  Redact.redacts (IndexJs.redact_paths extra) path = true
  ↔ IndexJs_covered path ∨ Redact.redacts extra path = true.
Proof.
  change (IndexJs.redact_paths extra) with (IndexJs.redact_paths [] ++ extra).
  rewrite redacts_app, orb_true_iff. split.
  - intros [H|H]; [left|by right].
    apply existsb_exists in H as (p & Hp & Hm). by apply (IndexJs_matches_covered p).
  - intros [H|H]; [left|by right]. by apply IndexJs_covered_redacts.
Qed.

(** X15: the paths of [src/unnamed/part_001] point exactly at a
    [password] or [email] at the top of the context or one level down,
    at what is directly inside a [headers] block one or two levels
    down, and at what the caller's own paths point at; an element of an
    array one level down is not reached. *)
Theorem Factory_redact_paths_cover extra path :
  Redact.redacts (Factory.redact_paths extra) path = true
  ↔ Factory_covered path ∨ Redact.redacts extra path = true.
Proof.
  change (Factory.redact_paths extra) with (Factory.redact_paths [] ++ extra).
  rewrite redacts_app, orb_true_iff. split.
  - intros [H|H]; [left|by right].
    apply existsb_exists in H as (p & Hp & Hm). by apply (Factory_matches_covered p).
  - intros [H|H]; [left|by right]. by apply Factory_covered_redacts.
Qed.

(** ** The assemblers of the earlier revisions *)

(** X16: in [src/unnamed/part_001] the merged object maps a key of the
    store to its value in the store, any other key of the context to
    its value in the context, and [severity], when neither has it, to
    the label of the level: the store wins over the context, against
    the comment above that [logMethod]. *)
Theorem Factory_merge_precedence labels store frames inputArgs level h args h1 A C :
  Factory.getArgs ("logMethod" :: frames) inputArgs h = (args, h1) →
  spread h1 (nth_arg args 1) = Returns C →
  spread_store h1 store = Returns A →
  let m := length h1 in
  ∃ h2, Factory.logMethod labels store frames inputArgs level h
        = Returns ([VRef m; nth_arg args 0], h2)
        ∧ h2 = h1 ++ [obj h2 m] ∧ okind (obj h2 m) = Plain
        ∧ ∀ k, props (obj h2 m) !! k
               = Data <$> match A !! k with
                          | Some v => Some v
                          | None => match C !! k with
                                    | Some v => Some v
                                    | None => if String.eqb k "severity"
                                              then Some (labels level) else None
                                    end
                          end.
Proof.
  intros Hargs HC HA m. subst m. unfold Factory.logMethod, alloc.
  rewrite Hargs, HC. simpl. rewrite HA. simpl.
  eexists. split; [done|]. rewrite obj_alloc_new. simpl. repeat split.
  intros k. rewrite lookup_fmap. f_equal. rewrite !lookup_union.
  destruct (A !! k), (C !! k); simpl; try done;
    destruct (String.eqb_spec k "severity") as [->|Hk];
    by rewrite ?lookup_singleton_eq, ?lookup_singleton_ne.
Qed.

Lemma Factory_merge_precedence_witness :
  let h := [Obj Plain {[ "tracer" := Data (VNumber (Finite 123));
                         "foo" := Data (VString "baz") ]};
            Obj Plain {[ "foo" := Data (VString "bar") ]}] in
  let args := [VString "Some message"; VRef 1] in
  let A : gmap string value := {[ "tracer" := VNumber (Finite 123); "foo" := VString "baz" ]} in
  let C : gmap string value := {[ "foo" := VString "bar" ]} in
  Factory.getArgs ["logMethod"; "LOG"; "app.js"] args h = (args, h)
  ∧ spread h (VRef 1) = Returns C
  ∧ spread_store h (VRef 0) = Returns A
  ∧ ∃ h2, Factory.logMethod (λ _, VString "info") (VRef 0) ["LOG"; "app.js"] args 30%Z h
          = Returns ([VRef 2; VString "Some message"], h2)
          ∧ props (obj h2 2) !! "foo" = Some (Data (VString "baz"))
          ∧ props (obj h2 2) !! "severity" = Some (Data (VString "info")).
Proof.
  intros h args A C.
  assert (Hargs : Factory.getArgs ["logMethod"; "LOG"; "app.js"] args h = (args, h))
    by (vm_compute; reflexivity).
  assert (HC : spread h (nth_arg args 1) = Returns C) by (vm_compute; reflexivity).
  assert (HA : spread_store h (VRef 0) = Returns A) by (vm_compute; reflexivity).
  split; [exact Hargs|]. split; [exact HC|]. split; [exact HA|].
  destruct (Factory_merge_precedence (λ _, VString "info") (VRef 0) ["LOG"; "app.js"] args
              30%Z h args h A C Hargs HC HA) as (h2 & Hlog & _ & _ & Hk).
  exists h2. split; [exact Hlog|]. split.
  - etrans; [exact (Hk "foo")|]. vm_compute. reflexivity.
  - etrans; [exact (Hk "severity")|]. vm_compute. reflexivity.
Defined.

Lemma IndexJs_getArgs_fst frames inputArgs h :
  IndexJs.resolved_args inputArgs h = resolved_args inputArgs h →
  (IndexJs.getArgs frames inputArgs h).1 = (getArgs frames inputArgs h).1
  ∧ length (IndexJs.getArgs frames inputArgs h).2 = length (getArgs frames inputArgs h).2.
Proof.
  intros E. unfold IndexJs.getArgs, getArgs. rewrite E.
  destruct (resolved_args inputArgs h) as [args h1].
  destruct (existsb (isNotEmpty h1) args); [by split|].
  rewrite fail_eq. unfold new_Error, alloc. simpl.
  rewrite !length_app. simpl. rewrite Nat.add_1_r. split; [done|lia].
Qed.

(** X17: the normaliser of [src/index.js] and the present one return the
    same arguments, in heaps of the same size, for every call in which
    an only argument is not a date and a second argument is neither a
    date nor an error: the two revisions differ on those calls only. *)
Theorem IndexJs_getArgs_agrees frames inputArgs h :
  (length inputArgs = 1 → instanceof_Date h (nth_arg inputArgs 0) = false) →
  (2 ≤ length inputArgs →
   instanceof_Date h (nth_arg inputArgs 1) = false
   ∧ instanceof_Error h (nth_arg inputArgs 1) = false) →
  (IndexJs.getArgs frames inputArgs h).1 = (getArgs frames inputArgs h).1
  ∧ length (IndexJs.getArgs frames inputArgs h).2 = length (getArgs frames inputArgs h).2.
Proof.
  intros H1 H2. apply IndexJs_getArgs_fst.
  unfold IndexJs.resolved_args, resolved_args.
  destruct inputArgs as [|x [|y rest]]; simpl in *.
  - done.
  - by rewrite (H1 eq_refl).
  - destruct H2 as [-> ->]; [lia|]. done.
Qed.

Lemma IndexJs_getArgs_agrees_witness :
  let h := [Obj Plain {[ "foo" := Data (VString "bar") ]}] in
  let inputArgs := [VString "Some message"; VRef 0] in
  instanceof_Date h (nth_arg inputArgs 1) = false
  ∧ instanceof_Error h (nth_arg inputArgs 1) = false
  ∧ (IndexJs.getArgs ["logMethod"] inputArgs h).1 = (getArgs ["logMethod"] inputArgs h).1.
Proof.
  intros h inputArgs. split; [reflexivity|]. split; [reflexivity|].
  refine (proj1 (IndexJs_getArgs_agrees ["logMethod"] inputArgs h _ _)).
  - simpl. intros H. discriminate H.
  - intros _. split; reflexivity.
Defined.

(** X18: in [src/index.js] a date without properties of its own, passed
    alone, is reported as an empty call: the arguments are [undefined]
    and a new object holding a new error under [err], and the date is
    lost. *)
Theorem IndexJs_date_alone frames h l iso :
  okind (obj h l) = DateObj iso →
  props (obj h l) = ∅ →
  IndexJs.getArgs frames [VRef l] h
  = ([VUndefined; VRef (S (length h))],
     h ++ [error_object ("getArgs" :: frames) "Empty log message"; err_wrapper (length h)]).
Proof.
  intros Hk Hp.
  assert (Hty : typeof h (VRef l) = "object") by (unfold typeof; by rewrite Hk).
  assert (He : instanceof_Error h (VRef l) = false)
    by (unfold instanceof_Error; by rewrite Hk).
  assert (Hempty : isNotEmpty h (VRef l) = false).
  { apply isNotEmpty_context_empty. right. right. exists l.
    repeat split; try done. unfold own_props. by rewrite Hk. }
  unfold IndexJs.getArgs, IndexJs.resolved_args, nth_arg, typeof_in. simpl.
  rewrite Hty, He. simpl. rewrite Hempty. simpl.
  unfold new_Error, alloc, error_object, err_wrapper.
  rewrite length_app, <- app_assoc. simpl. by rewrite Nat.add_1_r.
Qed.

Lemma IndexJs_date_alone_witness :
  let h := [Obj (DateObj (Some "2024-02-02T00:00:00.000Z")) ∅] in
  okind (obj h 0) = DateObj (Some "2024-02-02T00:00:00.000Z")
  ∧ props (obj h 0) = ∅
  ∧ IndexJs.getArgs ["logMethod"] [VRef 0] h
    = ([VUndefined; VRef 2],
       h ++ [error_object ["getArgs"; "logMethod"] "Empty log message"; err_wrapper 1]).
Proof.
  intros h. split; [reflexivity|]. split; [reflexivity|].
  exact (IndexJs_date_alone ["logMethod"] h 0 (Some "2024-02-02T00:00:00.000Z")
           eq_refl eq_refl).
Defined.

(** ** Every call settles ([logMethod], [stringify]) *)

